(** * Stream pipeline of go-extras: a shallow embedding and its properties

    The development follows the Go packages [stream] (the sequential
    operations on [Stream] and [ParallelStream]), [optional] and [enum].  A Go slice
    is a [list]; a Go [int] is a [Z]; a Go map is a [gmap]; callables supplied
    by the caller are pure Rocq functions.  Operations that can panic return
    an [outcome].  The transforming operations are modelled a second time over
    a store of backing arrays, where slices can share memory. *)

From Stdlib Require Import ZArith Lia.
From stdpp Require Import gmap strings list fin_maps.

Set Default Proof Using "Type".
Local Open Scope Z_scope.

(** ** Outcomes of a Go call *)

(** [Ok a]: the call returns [a].  [Panic]: the Go run time panics (index or
    slice bound out of range, unhashable map key).  [OutOfFuel]: a loop of the
    model used up the iteration budget it was given. *)
Inductive outcome (A : Type) : Type :=
| Ok (a : A)
| Panic
| OutOfFuel.
Arguments Ok {A} a.
Arguments Panic {A}.
Arguments OutOfFuel {A}.

#[global] Instance outcome_ret : MRet outcome := fun A a => Ok a.
#[global] Instance outcome_bind : MBind outcome := fun A B k m =>
  match m with
  | Ok a => k a
  | Panic => Panic
  | OutOfFuel => OutOfFuel
  end.

#[global] Instance outcome_fmap : FMap outcome := fun A B f m =>
  match m with
  | Ok a => Ok (f a)
  | Panic => Panic
  | OutOfFuel => OutOfFuel
  end.

(** ** optional.Optional *)

Module optional.

(** [found = false] leaves [value] at the zero value of [T]; the model keeps
    the field as an [option] so that no zero value has to be chosen. *)
Record Optional (T : Type) : Type := mkOptional { value : option T; found : bool }.
Arguments mkOptional {T} value found.
Arguments value {T} o.
Arguments found {T} o.

Definition Of {T : Type} (v : T) : Optional T := mkOptional (Some v) true.
Definition Empty {T : Type} : Optional T := mkOptional None false.

Definition IsPresent {T : Type} (o : Optional T) : bool := found o.

Definition GetIfPresent {T : Type} (o : Optional T) : option T * bool :=
  if found o then (value o, true) else (None, false).

(** [errors.New(text)]; the model identifies an error value with its text. *)
Inductive error : Type := errors_New (text : string).

Definition ErrNoValuePresent : error := errors_New "no value present".

Definition OfNullable {T : Type} (v : T) (isZero : T → bool) : Optional T :=
  if isZero v then Empty else Of v.

Section Methods.
Context {T : Type}.
(** The zero value of [T], which [var empty T] holds and which the field
    [value] holds when nothing was stored ([value o = None]). *)
Variable zero : T.

Definition stored (o : Optional T) : T := default zero (value o).

(** The result pair is (value, error); [None] is the nil error. *)
Definition Get (o : Optional T) : T * option error :=
  if found o then (stored o, None) else (zero, Some ErrNoValuePresent).

Definition OrElse (o : Optional T) (defaultValue : T) : T :=
  if found o then stored o else defaultValue.

(** [consumer] and [supplier] may have effects: they act on a state. *)
Definition IfPresent {St : Type} (o : Optional T) (consumer : T → St → St) (st : St)
  : St :=
  if found o then consumer (stored o) st else st.

Definition OrElseGet {St : Type} (o : Optional T) (supplier : St → T * St) (st : St)
  : T * St :=
  if found o then (stored o, st) else supplier st.

Definition OrElseThrow (o : Optional T) (err : option error) : T * option error :=
  if found o then (stored o, None) else (zero, err).

End Methods.

End optional.

(** ** Streams *)

Record Stream (T : Type) : Type := mkStream { elements : list T }.
Arguments mkStream {T} elements.
Arguments elements {T} s.

Definition NewStream {T : Type} (elements : list T) : Stream T := mkStream elements.

(** [len(s)] as a Go [int]. *)
Definition len {T : Type} (l : list T) : Z := Z.of_nat (length l).

(** The slice expression [s[:n]] panics unless [0 <= n <= cap(s)].  A list
    holds the visible part of a slice only, so the bound checked here is
    [len(s)]; [Limit] slices strictly below the length. *)
Definition slice_to {T : Type} (l : list T) (n : Z) : outcome (list T) :=
  if decide (0 ≤ n ≤ len l) then Ok (take (Z.to_nat n) l) else Panic.

Section Sequential.
Context {T : Type}.

(** [for _, e := range s.elements { if predicate(e) { result = append(result, e) } }] *)
Definition Filter (s : Stream T) (predicate : T → bool) : Stream T :=
  NewStream
    (foldl (fun result e => if predicate e then result ++ [e] else result)
           [] (elements s)).

Definition Reduce (s : Stream T) (reducer : T → T → T) (initialValue : T) : T :=
  foldl (fun accumulator e => reducer accumulator e) initialValue (elements s).

Definition ToSlice (s : Stream T) : list T := elements s.

Definition Count (s : Stream T) : Z := len (elements s).

(** The method [Stream.Collect] and the function [Collect] have the same body. *)
Definition Collect (s : Stream T) : list T := elements s.

Definition FindAny (s : Stream T) : optional.Optional T :=
  match elements s with
  | e0 :: _ => optional.Of e0
  | [] => optional.Empty
  end.

Definition FindFirst (s : Stream T) : optional.Optional T :=
  match elements s with
  | e0 :: _ => optional.Of e0
  | [] => optional.Empty
  end.

(** [if n >= len(stream.elements) { return stream }; return NewStream(stream.elements[:n])] *)
Definition Limit (stream : Stream T) (n : Z) : outcome (Stream T) :=
  if decide (n >= len (elements stream)) then Ok stream
  else l ← slice_to (elements stream) n; Ok (NewStream l).

End Sequential.

Section Mapping.
Context {T R : Type}.

Definition Map (stream : Stream T) (mapper : T → R) : Stream R :=
  NewStream (foldl (fun result e => result ++ [mapper e]) [] (elements stream)).

(** The method [Stream.FlatMap] (with [R = interface{}]) and the function
    [FlatMap] run the same loop. *)
Definition FlatMap (stream : Stream T) (mapper : T → list R) : Stream R :=
  NewStream (foldl (fun result e => result ++ mapper e) [] (elements stream)).

End Mapping.

(** ** Rendering, Distinct and Join *)

Section Rendering.
Context {T : Type}.

(** [fmt.Sprintf("%v", e)]: the canonical rendering of an element, which the
    [fmt] package derives from the element's type. *)
Variable Sprintf_v : T → string.

(** [uniqueMap] is a [map[interface{}]bool] whose keys are all strings. *)
Definition Distinct_step (st : gmap string bool * list T) (e : T)
  : gmap string bool * list T :=
  let '(uniqueMap, result) := st in
  let key := Sprintf_v e in
  match uniqueMap !! key with
  | Some _ => (uniqueMap, result)
  | None => (<[key := true]> uniqueMap, result ++ [e])
  end.

Definition Distinct (s : Stream T) : Stream T :=
  NewStream (snd (foldl Distinct_step (∅, []) (elements s))).

(** The loop of [Join]: [i] is the range index, [result] the builder. *)
Definition Join_step (separator : string) (st : Z * string) (e : T) : Z * string :=
  let '(i, result) := st in
  let result := if decide (i > 0) then result +:+ separator else result in
  (i + 1, result +:+ Sprintf_v e).

Definition Join (s : Stream T) (separator : string) : string :=
  match elements s with
  | [] => EmptyString
  | [e0] => Sprintf_v e0
  | _ => snd (foldl (Join_step separator) (0, EmptyString) (elements s))
  end.

End Rendering.

(** ** Grouping *)

(** [result[key] = append(result[key], v)]: a missing key reads as the nil slice. *)
Definition map_append `{Countable K} {V : Type} (result : gmap K (list V)) (key : K) (v : V)
  : gmap K (list V) :=
  <[key := default [] (result !! key) ++ [v]]> result.

(** The generic functions [GroupBy] and [GroupByWithValueMapper]: [K] is
    constrained by [comparable], modelled as a countable type whose Leibniz
    equality is Go's [==] (so no NaN-like key, which is unequal to itself). *)
Section Grouping.
Context {T V : Type} `{Countable K}.

Definition GroupBy (stream : Stream T) (keyMapper : T → K) : gmap K (list T) :=
  foldl (fun result e => let key := keyMapper e in map_append result key e)
        ∅ (elements stream).

Definition GroupByWithValueMapper (stream : Stream T) (keyMapper : T → K)
    (valueMapper : T → V) : gmap K (list V) :=
  foldl (fun result e =>
           let key := keyMapper e in
           let value := valueMapper e in
           map_append result key value)
        ∅ (elements stream).

End Grouping.

(** The methods on [*Stream[T]].  [GroupByString] and [GroupByStringToString]
    are the loops above at [K = string]. *)
Definition GroupByString {T : Type} (s : Stream T) (keyMapper : T → string)
  : gmap string (list T) := GroupBy s keyMapper.

Definition GroupByStringToString {T : Type} (s : Stream T)
    (keyMapper : T → string) (valueMapper : T → string)
  : gmap string (list string) := GroupByWithValueMapper s keyMapper valueMapper.

(** Methods whose keys and values are [interface{}].  A map indexed by an
    [interface{}] key panics when the key's dynamic type is not hashable
    (a slice, a map, a function). *)
Section DynamicKeys.
Context {T : Type} {any : Type} `{Countable any}.
Variable hashable : any → bool.

Definition any_map_append {V : Type} (result : gmap any (list V)) (key : any) (v : V)
  : outcome (gmap any (list V)) :=
  if hashable key then Ok (map_append result key v) else Panic.

Definition Stream_GroupBy (s : Stream T) (keyMapper : T → any)
  : outcome (gmap any (list T)) :=
  foldl (fun acc e => result ← acc;
                      let key := keyMapper e in
                      any_map_append result key e)
        (Ok ∅) (elements s).

Definition Stream_GroupByAndTransform (s : Stream T) (keyMapper : T → any)
    (valueMapper : T → any) : outcome (gmap any (list any)) :=
  foldl (fun acc e => result ← acc;
                      let key := keyMapper e in
                      let value := valueMapper e in
                      any_map_append result key value)
        (Ok ∅) (elements s).

End DynamicKeys.

(** ** Go's [sort.Slice]

    [Stream.Sort] hands its copy of the elements to [sort.Slice], which is not
    part of the repository.  The module below follows the pattern-defeating
    quicksort of Go's [sort] package (file [zsortfunc.go], Go 1.19 and later),
    function by function.  The slice being sorted is threaded through as
    [data]; [data.Less(i, j)] is the closure built by [Stream.Sort],
    [less(result[i], result[j])], and [data.Swap] is [reflect.Swapper].  Both
    panic on an index outside the slice.  Every [for] loop is a [Fixpoint] on
    an iteration budget and is started with [gas]. *)

Module sort.

Inductive sortedHint : Type := unknownHint | increasingHint | decreasingHint.

(** [bits.Len(x)]: the number of bits needed to write [x]. *)
Definition bits_Len (x : Z) : Z := if decide (x = 0) then 0 else Z.log2 x + 1.

Definition nextPowerOfTwo (length : Z) : Z := Z.shiftl 1 (bits_Len length).

Section lessSwap.
Context {T : Type}.
Variable less : T → T → bool.
(** One step of the package's [xorshift] generator on its 64-bit state;
    its shift constants are not the same in every release. *)
Variable xorshift_Next : Z → Z.
Variable gas : nat.

Definition index (data : list T) (i : Z) : outcome T :=
  if decide (0 ≤ i) then
    match data !! Z.to_nat i with
    | Some x => Ok x
    | None => Panic
    end
  else Panic.

Definition Less (data : list T) (i j : Z) : outcome bool :=
  x ← index data i; y ← index data j; Ok (less x y).

Definition Swap (data : list T) (i j : Z) : outcome (list T) :=
  x ← index data i; y ← index data j;
  Ok (<[Z.to_nat j := x]> (<[Z.to_nat i := y]> data)).

(** [for j := i; j > a && data.Less(j, j-1); j-- { data.Swap(j, j-1) }] *)
Fixpoint insertionSort_shift (fuel : nat) (data : list T) (a j : Z)
  : outcome (list T) :=
  match fuel with
  | O => OutOfFuel
  | S fuel =>
      if decide (j > a) then
        lt ← Less data j (j - 1);
        if lt : bool then
          data ← Swap data j (j - 1);
          insertionSort_shift fuel data a (j - 1)
        else Ok data
      else Ok data
  end.

(** [for i := a + 1; i < b; i++ { ... }] *)
Fixpoint insertionSort_loop (fuel : nat) (data : list T) (a b i : Z)
  : outcome (list T) :=
  match fuel with
  | O => OutOfFuel
  | S fuel =>
      if decide (i < b) then
        data ← insertionSort_shift gas data a i;
        insertionSort_loop fuel data a b (i + 1)
      else Ok data
  end.

Definition insertionSort_func (data : list T) (a b : Z) : outcome (list T) :=
  insertionSort_loop gas data a b (a + 1).

Fixpoint siftDown_loop (fuel : nat) (data : list T) (root hi first : Z)
  : outcome (list T) :=
  match fuel with
  | O => OutOfFuel
  | S fuel =>
      let child := 2 * root + 1 in
      if decide (child >= hi) then Ok data
      else
        child ← (if decide (child + 1 < hi) then
                   lt ← Less data (first + child) (first + child + 1);
                   Ok (if lt : bool then child + 1 else child)
                 else Ok child);
        lt ← Less data (first + root) (first + child);
        if lt : bool then
          data ← Swap data (first + root) (first + child);
          siftDown_loop fuel data child hi first
        else Ok data
  end.

Definition siftDown_func (data : list T) (lo hi first : Z) : outcome (list T) :=
  siftDown_loop gas data lo hi first.

(** [for i := (hi - 1) / 2; i >= 0; i-- { siftDown_func(data, i, hi, first) }] *)
Fixpoint heapSort_build (fuel : nat) (data : list T) (i hi first : Z)
  : outcome (list T) :=
  match fuel with
  | O => OutOfFuel
  | S fuel =>
      if decide (i >= 0) then
        data ← siftDown_func data i hi first;
        heapSort_build fuel data (i - 1) hi first
      else Ok data
  end.

(** [for i := hi - 1; i >= 0; i-- { data.Swap(first, first+i); siftDown_func(data, lo, i, first) }] *)
Fixpoint heapSort_pop (fuel : nat) (data : list T) (i lo first : Z)
  : outcome (list T) :=
  match fuel with
  | O => OutOfFuel
  | S fuel =>
      if decide (i >= 0) then
        data ← Swap data first (first + i);
        data ← siftDown_func data lo i first;
        heapSort_pop fuel data (i - 1) lo first
      else Ok data
  end.

Definition heapSort_func (data : list T) (a b : Z) : outcome (list T) :=
  let first := a in
  let lo := 0 in
  let hi := b - a in
  data ← heapSort_build gas data ((hi - 1) `quot` 2) hi first;
  heapSort_pop gas data (hi - 1) lo first.

(** [for i <= j && data.Less(i, a) { i++ }] *)
Fixpoint partition_up (fuel : nat) (data : list T) (a i j : Z) : outcome Z :=
  match fuel with
  | O => OutOfFuel
  | S fuel =>
      if decide (i <= j) then
        lt ← Less data i a;
        if lt : bool then partition_up fuel data a (i + 1) j else Ok i
      else Ok i
  end.

(** [for i <= j && !data.Less(j, a) { j-- }] *)
Fixpoint partition_down (fuel : nat) (data : list T) (a i j : Z) : outcome Z :=
  match fuel with
  | O => OutOfFuel
  | S fuel =>
      if decide (i <= j) then
        lt ← Less data j a;
        if lt : bool then Ok j else partition_down fuel data a i (j - 1)
      else Ok j
  end.

(** The final [for { ... }] of [partition_func]; returns [data] and [j]. *)
Fixpoint partition_loop (fuel : nat) (data : list T) (a i j : Z)
  : outcome (list T * Z) :=
  match fuel with
  | O => OutOfFuel
  | S fuel =>
      i ← partition_up gas data a i j;
      j ← partition_down gas data a i j;
      if decide (i > j) then Ok (data, j)
      else
        data ← Swap data i j;
        partition_loop fuel data a (i + 1) (j - 1)
  end.

Definition partition_func (data : list T) (a b pivot : Z)
  : outcome (list T * Z * bool) :=
  data ← Swap data a pivot;
  let i := a + 1 in
  let j := b - 1 in
  i ← partition_up gas data a i j;
  j ← partition_down gas data a i j;
  if decide (i > j) then
    data ← Swap data j a;
    Ok (data, j, true)
  else
    data ← Swap data i j;
    '(data, j) ← partition_loop gas data a (i + 1) (j - 1);
    data ← Swap data j a;
    Ok (data, j, false).

(** [for i <= j && !data.Less(a, i) { i++ }] *)
Fixpoint partitionEqual_up (fuel : nat) (data : list T) (a i j : Z) : outcome Z :=
  match fuel with
  | O => OutOfFuel
  | S fuel =>
      if decide (i <= j) then
        lt ← Less data a i;
        if lt : bool then Ok i else partitionEqual_up fuel data a (i + 1) j
      else Ok i
  end.

(** [for i <= j && data.Less(a, j) { j-- }] *)
Fixpoint partitionEqual_down (fuel : nat) (data : list T) (a i j : Z) : outcome Z :=
  match fuel with
  | O => OutOfFuel
  | S fuel =>
      if decide (i <= j) then
        lt ← Less data a j;
        if lt : bool then partitionEqual_down fuel data a i (j - 1) else Ok j
      else Ok j
  end.

Fixpoint partitionEqual_loop (fuel : nat) (data : list T) (a i j : Z)
  : outcome (list T * Z) :=
  match fuel with
  | O => OutOfFuel
  | S fuel =>
      i ← partitionEqual_up gas data a i j;
      j ← partitionEqual_down gas data a i j;
      if decide (i > j) then Ok (data, i)
      else
        data ← Swap data i j;
        partitionEqual_loop fuel data a (i + 1) (j - 1)
  end.

Definition partitionEqual_func (data : list T) (a b pivot : Z)
  : outcome (list T * Z) :=
  data ← Swap data a pivot;
  partitionEqual_loop gas data a (a + 1) (b - 1).

Definition maxSteps : Z := 5.
Definition shortestShifting : Z := 50.

(** [for i < b && !data.Less(i, i-1) { i++ }] *)
Fixpoint partialInsertionSort_scan (fuel : nat) (data : list T) (b i : Z)
  : outcome Z :=
  match fuel with
  | O => OutOfFuel
  | S fuel =>
      if decide (i < b) then
        lt ← Less data i (i - 1);
        if lt : bool then Ok i else partialInsertionSort_scan fuel data b (i + 1)
      else Ok i
  end.

(** [for j := i - 1; j >= 1; j-- { if !data.Less(j, j-1) { break }; data.Swap(j, j-1) }] *)
Fixpoint partialInsertionSort_left (fuel : nat) (data : list T) (j : Z)
  : outcome (list T) :=
  match fuel with
  | O => OutOfFuel
  | S fuel =>
      if decide (j >= 1) then
        lt ← Less data j (j - 1);
        if lt : bool then
          data ← Swap data j (j - 1);
          partialInsertionSort_left fuel data (j - 1)
        else Ok data
      else Ok data
  end.

(** [for j := i + 1; j < b; j++ { if !data.Less(j, j-1) { break }; data.Swap(j, j-1) }] *)
Fixpoint partialInsertionSort_right (fuel : nat) (data : list T) (b j : Z)
  : outcome (list T) :=
  match fuel with
  | O => OutOfFuel
  | S fuel =>
      if decide (j < b) then
        lt ← Less data j (j - 1);
        if lt : bool then
          data ← Swap data j (j - 1);
          partialInsertionSort_right fuel data b (j + 1)
        else Ok data
      else Ok data
  end.

(** [for j := 0; j < maxSteps; j++ { ... }]; the result carries the slice
    as the loop left it together with the returned flag. *)
Fixpoint partialInsertionSort_loop (fuel : nat) (data : list T) (a b i j : Z)
  : outcome (list T * bool) :=
  match fuel with
  | O => OutOfFuel
  | S fuel =>
      if decide (j < maxSteps) then
        i ← partialInsertionSort_scan gas data b i;
        if decide (i = b) then Ok (data, true)
        else if decide (b - a < shortestShifting) then Ok (data, false)
        else
          data ← Swap data i (i - 1);
          data ← (if decide (i - a >= 2)
                  then partialInsertionSort_left gas data (i - 1)
                  else Ok data);
          data ← (if decide (b - i >= 2)
                  then partialInsertionSort_right gas data b (i + 1)
                  else Ok data);
          partialInsertionSort_loop fuel data a b i (j + 1)
      else Ok (data, false)
  end.

Definition partialInsertionSort_func (data : list T) (a b : Z)
  : outcome (list T * bool) :=
  partialInsertionSort_loop gas data a b (a + 1) 0.

(** [for i := 0; i < 3; i++ { ... }] of [breakPatterns_func] *)
Fixpoint breakPatterns_loop (fuel : nat) (data : list T)
    (a length random modulus idx i : Z) : outcome (list T) :=
  match fuel with
  | O => OutOfFuel
  | S fuel =>
      if decide (i < 3) then
        let random := xorshift_Next random in
        let other := Z.land random (modulus - 1) in
        let other := if decide (other >= length) then other - length else other in
        data ← Swap data (idx - 1 + i) (a + other);
        breakPatterns_loop fuel data a length random modulus idx (i + 1)
      else Ok data
  end.

Definition breakPatterns_func (data : list T) (a b : Z) : outcome (list T) :=
  let length := b - a in
  if decide (length >= 8) then
    let random := length in
    let modulus := nextPowerOfTwo length in
    let idx := a + (length `quot` 4) * 2 - 1 in
    breakPatterns_loop gas data a length random modulus idx 0
  else Ok data.

(** [order2_func], [median_func] and [medianAdjacent_func] only compare;
    the counter behind [swaps *int] is passed in and returned. *)
Definition order2_func (data : list T) (a b swaps : Z) : outcome (Z * Z * Z) :=
  lt ← Less data b a;
  if lt : bool then Ok (b, a, swaps + 1) else Ok (a, b, swaps).

Definition median_func (data : list T) (a b c swaps : Z) : outcome (Z * Z) :=
  '(a, b, swaps) ← order2_func data a b swaps;
  '(b, c, swaps) ← order2_func data b c swaps;
  '(a, b, swaps) ← order2_func data a b swaps;
  Ok (b, swaps).

Definition medianAdjacent_func (data : list T) (a swaps : Z) : outcome (Z * Z) :=
  median_func data (a - 1) a (a + 1) swaps.

Definition shortestNinther : Z := 50.
Definition maxSwaps : Z := 4 * 3.

Definition choosePivot_func (data : list T) (a b : Z) : outcome (Z * sortedHint) :=
  let l := b - a in
  let swaps := 0 in
  let i := a + l `quot` 4 * 1 in
  let j := a + l `quot` 4 * 2 in
  let k := a + l `quot` 4 * 3 in
  '(j, swaps) ←
    (if decide (l >= 8) then
       '(i, j, k, swaps) ←
         (if decide (l >= shortestNinther) then
            '(i, swaps) ← medianAdjacent_func data i swaps;
            '(j, swaps) ← medianAdjacent_func data j swaps;
            '(k, swaps) ← medianAdjacent_func data k swaps;
            Ok (i, j, k, swaps)
          else Ok (i, j, k, swaps));
       median_func data i j k swaps
     else Ok (j, swaps));
  if decide (swaps = 0) then Ok (j, increasingHint)
  else if decide (swaps = maxSwaps) then Ok (j, decreasingHint)
  else Ok (j, unknownHint).

(** [for i < j { data.Swap(i, j); i++; j-- }] *)
Fixpoint reverseRange_loop (fuel : nat) (data : list T) (i j : Z)
  : outcome (list T) :=
  match fuel with
  | O => OutOfFuel
  | S fuel =>
      if decide (i < j) then
        data ← Swap data i j;
        reverseRange_loop fuel data (i + 1) (j - 1)
      else Ok data
  end.

Definition reverseRange_func (data : list T) (a b : Z) : outcome (list T) :=
  reverseRange_loop gas data a (b - 1).

Definition maxInsertion : Z := 12.

Definition is_increasing (hint : sortedHint) : bool :=
  match hint with increasingHint => true | _ => false end.

(** The [for { ... }] of [pdqsort_func] with its locals [a], [b], [limit],
    [wasBalanced] and [wasPartitioned]; a recursive call starts the loop
    again with both flags [true]. *)
Fixpoint pdqsort_loop (fuel : nat) (data : list T) (a b limit : Z)
    (wasBalanced wasPartitioned : bool) : outcome (list T) :=
  match fuel with
  | O => OutOfFuel
  | S fuel =>
      let length := b - a in
      if decide (length <= maxInsertion) then insertionSort_func data a b
      else if decide (limit = 0) then heapSort_func data a b
      else
        '(data, limit) ←
          (if negb wasBalanced then
             data ← breakPatterns_func data a b; Ok (data, limit - 1)
           else Ok (data, limit));
        '(pivot, hint) ← choosePivot_func data a b;
        '(data, pivot, hint) ←
          (match hint with
           | decreasingHint =>
               data ← reverseRange_func data a b;
               Ok (data, (b - 1) - (pivot - a), increasingHint)
           | _ => Ok (data, pivot, hint)
           end);
        '(data, sorted) ←
          (if wasBalanced && wasPartitioned && is_increasing hint
           then partialInsertionSort_func data a b
           else Ok (data, false));
        if sorted : bool then Ok data
        else
          equal ← (if decide (a > 0) then
                     lt ← Less data (a - 1) pivot; Ok (negb lt)
                   else Ok false);
          if equal : bool then
            '(data, mid) ← partitionEqual_func data a b pivot;
            pdqsort_loop fuel data mid b limit wasBalanced wasPartitioned
          else
            '(data, mid, alreadyPartitioned) ← partition_func data a b pivot;
            let wasPartitioned := alreadyPartitioned in
            let leftLen := mid - a in
            let rightLen := b - mid in
            let balanceThreshold := length `quot` 8 in
            if decide (leftLen < rightLen) then
              let wasBalanced := bool_decide (leftLen >= balanceThreshold) in
              data ← pdqsort_loop fuel data a mid limit true true;
              pdqsort_loop fuel data (mid + 1) b limit wasBalanced wasPartitioned
            else
              let wasBalanced := bool_decide (rightLen >= balanceThreshold) in
              data ← pdqsort_loop fuel data (mid + 1) b limit true true;
              pdqsort_loop fuel data a mid limit wasBalanced wasPartitioned
  end.

Definition pdqsort_func (data : list T) (a b limit : Z) : outcome (list T) :=
  pdqsort_loop gas data a b limit true true.

(** [sort.Slice(x, less)] *)
Definition Slice (x : list T) : outcome (list T) :=
  let length := len x in
  let limit := bits_Len length in
  pdqsort_func x 0 length limit.

End lessSwap.
End sort.

(** ** Stream.Sort *)

(** Iteration budget handed to every loop of [sort.Slice] on a slice of [n]
    elements. *)
Definition sort_gas (n : nat) : nat := (n + 8)%nat.

Section Sorting.
Context {T : Type}.
Variable xorshift_Next : Z → Z.

(** [result := make([]T, len(s.elements)); copy(result, s.elements)]:
    [result] starts as a copy of the receiver's elements. *)
Definition Sort (s : Stream T) (less : T → T → bool) : outcome (Stream T) :=
  let result := elements s in
  result ← sort.Slice less xorshift_Next (sort_gas (length result)) result;
  Ok (NewStream result).

End Sorting.

(** ** Stream.ParallelStream

    The call runs one main goroutine and one goroutine per element; they share
    the wait group [wg], the semaphore channel [sem] and the buffered channel
    [resultChan].  The model is a transition system in which any goroutine that
    is not blocked may take the next step (interleaving semantics).  [mapper]
    is a pure function. *)

Module parallel.
Section ParallelStream.
Context {T R : Type}.
(** [runtime.GOMAXPROCS(0)], the current setting, which is at least 1. *)
Variable GOMAXPROCS : Z.
Variable mapper : T → R.

(** Where a spawned goroutine stands. *)
Inductive goroutine : Type :=
| GSend (el : T)   (* at  resultChan <- mapper(el)  *)
| GRelease         (* at the deferred  <-sem  *)
| GDone.           (* at the deferred  wg.Done()  *)

(** Where the caller's goroutine stands. *)
Inductive main : Type :=
| MRange (rest : list T)             (* at the head of  for _, e := range s.elements  *)
| MAcquire (e : T) (rest : list T)   (* after wg.Add(1), at  sem <- struct{}{}  *)
| MGo (e : T) (rest : list T)        (* at the  go  statement *)
| MWait                              (* at  wg.Wait()  *)
| MClose                             (* at  close(resultChan)  *)
| MCollect (result : list R)         (* in  for res := range resultChan  *)
| MReturn (out : Stream R)
| MPanic.

Record state : Type := mkState {
  pc : main;
  wg : Z;                     (* the WaitGroup counter *)
  sem : Z;                    (* tokens buffered in [sem] *)
  resultChan : list R;        (* values buffered in [resultChan], oldest first *)
  closed : bool;              (* [resultChan] has been closed *)
  goroutines : list goroutine (* the spawned goroutines still running *)
}.

Definition default_maxGoroutines (maxGoroutines : Z) : Z :=
  if decide (maxGoroutines <= 0) then GOMAXPROCS else maxGoroutines.

Definition init (s : Stream T) : state :=
  mkState (MRange (elements s)) 0 0 [] false [].

Section Step.
(** Capacities of [sem] and of [resultChan]. *)
Variable maxGoroutines : Z.
Variable capacity : Z.

Inductive step : state → state → Prop :=
| step_add e rest w s c cl gs :
    step (mkState (MRange (e :: rest)) w s c cl gs)
         (mkState (MAcquire e rest) (w + 1) s c cl gs)
| step_acquire e rest w s c cl gs :
    s < maxGoroutines →
    step (mkState (MAcquire e rest) w s c cl gs)
         (mkState (MGo e rest) w (s + 1) c cl gs)
| step_go e rest w s c cl gs :
    step (mkState (MGo e rest) w s c cl gs)
         (mkState (MRange rest) w s c cl (gs ++ [GSend e]))
| step_range_end w s c cl gs :
    step (mkState (MRange []) w s c cl gs)
         (mkState MWait w s c cl gs)
| step_wait s c cl gs :
    step (mkState MWait 0 s c cl gs)
         (mkState MClose 0 s c cl gs)
| step_close w s c cl gs :
    step (mkState MClose w s c cl gs)
         (mkState (MCollect []) w s c true gs)
| step_collect result res w s c cl gs :
    step (mkState (MCollect result) w s (res :: c) cl gs)
         (mkState (MCollect (result ++ [res])) w s c cl gs)
| step_collect_end result w s gs :
    step (mkState (MCollect result) w s [] true gs)
         (mkState (MReturn (NewStream result)) w s [] true gs)
| step_send el p w s c gs1 gs2 :
    len c < capacity →
    step (mkState p w s c false (gs1 ++ GSend el :: gs2))
         (mkState p w s (c ++ [mapper el]) false (gs1 ++ GRelease :: gs2))
| step_send_closed el p w s c gs1 gs2 :
    step (mkState p w s c true (gs1 ++ GSend el :: gs2))
         (mkState MPanic w s c true (gs1 ++ gs2))
| step_release p w s c cl gs1 gs2 :
    0 < s →
    step (mkState p w s c cl (gs1 ++ GRelease :: gs2))
         (mkState p w (s - 1) c cl (gs1 ++ GDone :: gs2))
| step_done p w s c cl gs1 gs2 :
    0 < w →
    step (mkState p w s c cl (gs1 ++ GDone :: gs2))
         (mkState p (w - 1) s c cl (gs1 ++ gs2))
| step_done_negative p w s c cl gs1 gs2 :
    w <= 0 →
    step (mkState p w s c cl (gs1 ++ GDone :: gs2))
         (mkState MPanic (w - 1) s c cl (gs1 ++ gs2)).

(** The same steps as functions: the next step of the caller's
    goroutine and of the [i]-th spawned goroutine; [None] when the
    goroutine is blocked or has finished. *)
Definition main_step (st : state) : option state :=
  let 'mkState p w s c cl gs := st in
  match p with
  | MRange (e :: rest) => Some (mkState (MAcquire e rest) (w + 1) s c cl gs)
  | MRange [] => Some (mkState MWait w s c cl gs)
  | MAcquire e rest =>
      if decide (s < maxGoroutines)
      then Some (mkState (MGo e rest) w (s + 1) c cl gs) else None
  | MGo e rest => Some (mkState (MRange rest) w s c cl (gs ++ [GSend e]))
  | MWait => if decide (w = 0) then Some (mkState MClose 0 s c cl gs) else None
  | MClose => Some (mkState (MCollect []) w s c true gs)
  | MCollect result =>
      match c with
      | res :: c => Some (mkState (MCollect (result ++ [res])) w s c cl gs)
      | [] => if cl then Some (mkState (MReturn (NewStream result)) w s [] true gs)
              else None
      end
  | MReturn _ | MPanic => None
  end.

Definition goroutine_step (i : nat) (st : state) : option state :=
  let 'mkState p w s c cl gs := st in
  match gs !! i with
  | Some (GSend el) =>
      if cl then Some (mkState MPanic w s c true (delete i gs))
      else if decide (len c < capacity)
           then Some (mkState p w s (c ++ [mapper el]) false (<[i := GRelease]> gs))
           else None
  | Some GRelease =>
      if decide (0 < s) then Some (mkState p w (s - 1) c cl (<[i := GDone]> gs))
      else None
  | Some GDone =>
      if decide (0 < w) then Some (mkState p (w - 1) s c cl (delete i gs))
      else Some (mkState MPanic (w - 1) s c cl (delete i gs))
  | None => None
  end.

Inductive thread : Type := Main | Spawned (i : nat).

Definition thread_step (t : thread) (st : state) : option state :=
  match t with
  | Main => main_step st
  | Spawned i => goroutine_step i st
  end.

(** Runs the threads in the order of [schedule]. *)
Fixpoint schedule_run (schedule : list thread) (st : state) : option state :=
  match schedule with
  | [] => Some st
  | t :: schedule => st' ← thread_step t st; schedule_run schedule st'
  end.

End Step.

(** A run of [s.ParallelStream(mapper, maxGoroutines)]. *)
Definition run (s : Stream T) (maxGoroutines : Z) : state → state → Prop :=
  step (default_maxGoroutines maxGoroutines) (len (elements s)).

Definition reachable (s : Stream T) (maxGoroutines : Z) (st : state) : Prop :=
  rtc (run s maxGoroutines) (init s) st.

(** The call returns [out] on some schedule. *)
Definition ParallelStream (s : Stream T) (maxGoroutines : Z) (out : Stream R) : Prop :=
  ∃ st, reachable s maxGoroutines st ∧ pc st = MReturn out.

(** Steps still to be taken, used to bound the length of every run. *)
Definition goroutine_steps (g : goroutine) : nat :=
  match g with
  | GSend _ => 4
  | GRelease => 2
  | GDone => 1
  end.

Definition main_steps (p : main) : nat :=
  match p with
  | MRange rest => 7 * length rest + 4
  | MAcquire _ rest => 7 * length rest + 10
  | MGo _ rest => 7 * length rest + 9
  | MWait => 3
  | MClose => 2
  | MCollect _ => 1
  | MReturn _ => 0
  | MPanic => 0
  end.

Definition steps_left (st : state) : nat :=
  main_steps (pc st) + sum_list_with goroutine_steps (goroutines st)
    + length (resultChan st).

(** What the invariant of a run speaks about. *)

(** Elements not yet handed to a goroutine. *)
Definition pending (p : main) : list T :=
  match p with
  | MRange rest => rest
  | MAcquire e rest | MGo e rest => e :: rest
  | _ => []
  end.

(** Elements whose goroutine has not sent its result yet. *)
Definition unsent (g : goroutine) : option T :=
  match g with
  | GSend el => Some el
  | _ => None
  end.

(** Results already taken out of [resultChan]. *)
Definition collected (p : main) : list R :=
  match p with
  | MCollect result => result
  | MReturn out => elements out
  | _ => []
  end.

(** [wg.Add(1)] calls whose goroutine is not spawned yet. *)
Definition added (p : main) : Z :=
  match p with
  | MAcquire _ _ | MGo _ _ => 1
  | _ => 0
  end.

(** Tokens acquired for a goroutine that is not spawned yet. *)
Definition acquired (p : main) : Z :=
  match p with
  | MGo _ _ => 1
  | _ => 0
  end.

Definition holds_token (g : goroutine) : bool :=
  match g with
  | GSend _ | GRelease => true
  | GDone => false
  end.

Definition tokens (gs : list goroutine) : Z :=
  len (filter (fun g => holds_token g) gs).

(** What the position of the caller's goroutine says about the channel
    and the spawned goroutines. *)
Definition main_ok (p : main) (cl : bool) (gs : list goroutine) (c : list R) : Prop :=
  match p with
  | MRange _ | MAcquire _ _ | MGo _ _ | MWait => cl = false
  | MClose => cl = false ∧ gs = []
  | MCollect _ => cl = true ∧ gs = []
  | MReturn _ => cl = true ∧ gs = [] ∧ c = []
  | MPanic => False
  end.

Definition inv (input : list T) (st : state) : Prop :=
  collected (pc st) ++ resultChan st
    ++ (mapper <$> omap unsent (goroutines st)) ++ (mapper <$> pending (pc st))
  ≡ₚ mapper <$> input
  ∧ wg st = len (goroutines st) + added (pc st)
  ∧ sem st = tokens (goroutines st) + acquired (pc st)
  ∧ main_ok (pc st) (closed st) (goroutines st) (resultChan st).

End ParallelStream.
End parallel.

(** ** The operations over shared memory

    A Go slice is a header (backing array, offset, length, capacity) and two
    slices may share a backing array.  To state that an operation leaves its
    receiver alone, the transforming operations are modelled a second time
    over a store of backing arrays: [append] writes in place when the capacity
    allows it, and allocates otherwise.  All element types are embedded in one
    type [V] of Go values, so that nothing in the types keeps a result from
    sharing memory with the receiver. *)

Module mem.
Section Memory.
Context {V : Type}.
(** The zero value that fresh memory holds. *)
Variable zero : V.
(** Spare capacity that [runtime.growslice] adds when [append] has to move
    a slice of the given capacity to hold the given number of elements. *)
Variable growslice_spare : nat → nat → nat.
Variable Sprintf_v : V → string.
Variable xorshift_Next : Z → Z.

(** The store: backing arrays by address; allocation adds one at the end. *)
Abbreviation heap := (list (list V)).

(** [array = None] is the nil slice. *)
Record slice : Type := mkSlice {
  array : option nat;
  offset : nat;
  slen : nat;
  scap : nat
}.

Definition nil_slice : slice := mkSlice None 0 0 0.

(** The elements visible through a slice. *)
Definition contents (h : heap) (s : slice) : list V :=
  match array s with
  | None => []
  | Some p => take (slen s) (drop (offset s) (default [] (h !! p)))
  end.

(** The slice points into allocated memory. *)
Definition allocated (h : heap) (s : slice) : Prop :=
  match array s with
  | None => True
  | Some p => (p < length h)%nat
  end.

(** Computations over the store; a panic keeps the store as it was left. *)
Definition M (A : Type) : Type := heap → outcome A * heap.

Definition ret {A : Type} (a : A) : M A := fun h => (Ok a, h).

Definition bind {A B : Type} (m : M A) (k : A → M B) : M B :=
  fun h =>
    match m h with
    | (Ok a, h') => k a h'
    | (Panic, h') => (Panic, h')
    | (OutOfFuel, h') => (OutOfFuel, h')
    end.

Definition panic {A : Type} : M A := fun h => (Panic, h).

Definition store (h : heap) (p i : nat) (x : V) : heap :=
  alter (fun arr => <[i := x]> arr) p h.

Fixpoint store_list (h : heap) (p i : nat) (xs : list V) : heap :=
  match xs with
  | [] => h
  | x :: xs => store_list (store h p i x) p (S i) xs
  end.

Definition alloc (arr : list V) : M nat := fun h => (Ok (length h), h ++ [arr]).

(** [s[i]] *)
Definition index (s : slice) (i : nat) : M V :=
  fun h =>
    match contents h s !! i with
    | Some e => (Ok e, h)
    | None => (Panic, h)
    end.

(** [make([]T, n)] *)
Definition make (n : nat) : M slice :=
  bind (alloc (replicate n zero)) (fun p => ret (mkSlice (Some p) 0 n n)).

(** [copy(dst, src)] *)
Definition copy (dst src : slice) : M nat :=
  fun h =>
    let n := (slen dst `min` slen src)%nat in
    match array dst with
    | None => (Ok n, h)
    | Some p => (Ok n, store_list h p (offset dst) (take n (contents h src)))
    end.

(** [append(s, xs...)]: in place while [len(s) + len(xs) <= cap(s)], else
    into a fresh array that receives the old elements first. *)
Definition append (s : slice) (xs : list V) : M slice :=
  fun h =>
    let n := length xs in
    if decide (slen s + n ≤ scap s)%nat then
      match array s with
      | None => (Ok s, h)
      | Some p =>
          (Ok (mkSlice (Some p) (offset s) (slen s + n) (scap s)),
           store_list h p (offset s + slen s) xs)
      end
    else
      let needed := (slen s + n)%nat in
      let newcap := (needed + growslice_spare (scap s) needed)%nat in
      (Ok (mkSlice (Some (length h)) 0 needed newcap),
       h ++ [contents h s ++ xs ++ replicate (newcap - needed) zero]).

(** [for _, e := range s { acc = body(acc, e) }]: the header is read once,
    each element when its turn comes; [i] is the index reached and [n] the
    number of elements still to visit. *)
Fixpoint range_loop {A : Type} (body : A → V → M A) (s : slice) (i n : nat) (acc : A)
  : M A :=
  match n with
  | O => ret acc
  | S n =>
      bind (index s i) (fun e =>
      bind (body acc e) (fun acc =>
      range_loop body s (S i) n acc))
  end.

Definition range {A : Type} (body : A → V → M A) (s : slice) (acc : A) : M A :=
  range_loop body s 0 (slen s) acc.

(** A stream is its [elements] header; no operation assigns the field. *)
Definition Filter (s : slice) (predicate : V → bool) : M slice :=
  range (fun result e => if predicate e then append result [e] else ret result)
        s nil_slice.

Definition Map (stream : slice) (mapper : V → V) : M slice :=
  range (fun result e => append result [mapper e]) stream nil_slice.

(** [mapper] yields the elements of the slice it returns. *)
Definition FlatMap (stream : slice) (mapper : V → list V) : M slice :=
  range (fun result e => append result (mapper e)) stream nil_slice.

Definition Distinct (s : slice) : M slice :=
  bind (range (fun (st : gmap string bool * slice) e =>
                 let '(uniqueMap, result) := st in
                 let key := Sprintf_v e in
                 match uniqueMap !! key with
                 | Some _ => ret (uniqueMap, result)
                 | None => bind (append result [e]) (fun result =>
                           ret (<[key := true]> uniqueMap, result))
                 end)
              s (∅, nil_slice))
       (fun st => ret (snd st)).

(** [sort.Slice(result, ...)] permutes the elements of [result] in place. *)
Definition sort_Slice (result : slice) (less : V → V → bool) : M unit :=
  fun h =>
    let data := contents h result in
    match sort.Slice less xorshift_Next (sort_gas (length data)) data with
    | Ok data =>
        match array result with
        | None => (Ok (), h)
        | Some p => (Ok (), store_list h p (offset result) data)
        end
    | Panic => (Panic, h)
    | OutOfFuel => (OutOfFuel, h)
    end.

Definition Sort (s : slice) (less : V → V → bool) : M slice :=
  bind (make (slen s)) (fun result =>
  bind (copy result s) (fun _ =>
  bind (sort_Slice result less) (fun _ =>
  ret result))).

(** [s[:n]] on a header: panics unless [0 <= n <= cap(s)]. *)
Definition slice_to (s : slice) (n : Z) : M slice :=
  if decide (0 ≤ n ≤ Z.of_nat (scap s))
  then ret (mkSlice (array s) (offset s) (Z.to_nat n) (scap s))
  else panic.

Definition Limit (stream : slice) (n : Z) : M slice :=
  if decide (n >= Z.of_nat (slen stream)) then ret stream
  else slice_to stream n.

(** What the statements about the store speak about. *)

(** The header lies within its backing array. *)
Definition wf (h : heap) (s : slice) : Prop :=
  match array s with
  | None => slen s = 0%nat ∧ scap s = 0%nat
  | Some p => ∃ arr, h !! p = Some arr
                     ∧ (offset s + scap s ≤ length arr)%nat
                     ∧ (slen s ≤ scap s)%nat
  end.

(** The backing array was allocated after the store had the size of [h0]. *)
Definition fresh (h0 : heap) (s : slice) : Prop :=
  match array s with
  | None => True
  | Some p => (length h0 ≤ p)%nat
  end.

(** [h] still holds every array of [h0] as it was. *)
Definition frame (h0 h : heap) : Prop :=
  (length h0 ≤ length h)%nat ∧ ∀ p, (p < length h0)%nat → h !! p = h0 !! p.

(** The slice [r] that a loop is building: it lies in memory allocated
    after the store had the size of [h0], and holds [l]. *)
Definition accumulates (h0 h : heap) (r : slice) (l : list V) : Prop :=
  wf h r ∧ fresh h0 r ∧ contents h r = l.

(** [res] is what an operation on the receiver [s] gave when started in
    [h]: the receiver still holds what it held, and the outcome is that of
    the operation on lists, [pure]. *)
Definition agrees (h : heap) (s : slice) (res : outcome slice * heap)
    (pure : outcome (list V)) : Prop :=
  contents res.2 s = contents h s
  ∧ match pure with
    | Ok l => ∃ r, res.1 = Ok r ∧ contents res.2 r = l
    | Panic => res.1 = Panic
    | OutOfFuel => res.1 = OutOfFuel
    end.

End Memory.
End mem.

(** ** Notions used in the statements *)

(** In the words of the specification of [Distinct]: keep the first
    occurrence of each element, two elements being equal when their renderings
    are; the order of the first occurrences is kept. *)
Fixpoint first_occurrences {T : Type} (render : T → string) (l : list T) : list T :=
  match l with
  | [] => []
  | e :: l => e :: filter (fun e' => render e' ≠ render e) (first_occurrences render l)
  end.






Definition by_rank (p q : Z * string) : bool := bool_decide (fst p < fst q).


(** [perm_via proj data m]: if [m] returns, the slice in its result (selected
    by [proj]) is a rearrangement of [data]. *)
Definition perm_via {T A : Type} (proj : A → list T) (data : list T) (m : outcome A) : Prop :=
  match m with
  | Ok a => proj a ≡ₚ data
  | _ => True
  end.

(** ** Stream.ForEach *)

(** [action] is called for its effect, modelled as a change of a state. *)
Definition ForEach {T St : Type} (s : Stream T) (action : T → St → St) (st : St) : St :=
  foldl (fun st e => action e st) st (elements s).

(** ** The package enum *)

Module enum.

Record Enum (T : Type) : Type := mkEnum { Name : string; Value : T }.
Arguments mkEnum {T} Name Value.
Arguments Name {T} e.
Arguments Value {T} e.

Definition String {T : Type} (e : Enum T) : string := Name e.

Definition Equal {T : Type} (e other : Enum T) : bool :=
  bool_decide (Name e = Name other).

Record EnumSet (T : Type) : Type := mkEnumSet { values : list (Enum T) }.
Arguments mkEnumSet {T} values.
Arguments values {T} _.

Definition NewEnumSet {T : Type} : EnumSet T := mkEnumSet [].

(** [s.values = append(s.values, e)]: the set after the call. *)
Definition Add {T : Type} (s : EnumSet T) (e : Enum T) : EnumSet T :=
  mkEnumSet (values s ++ [e]).

Definition Values {T : Type} (s : EnumSet T) : list (Enum T) := values s.

(** [for _, v := range s.values { if v.Name == name { return optional.Of(v) } }] *)
Fixpoint FindByName_loop {T : Type} (vs : list (Enum T)) (name : string)
  : optional.Optional (Enum T) :=
  match vs with
  | [] => optional.Empty
  | v :: vs => if decide (Name v = name) then optional.Of v
               else FindByName_loop vs name
  end.

Definition FindByName {T : Type} (s : EnumSet T) (name : string)
  : optional.Optional (Enum T) :=
  FindByName_loop (values s) name.

Definition FromValues {T : Type} (values : list (Enum T)) : EnumSet T :=
  mkEnumSet values.

End enum.

(** ** Further notions used in the statements *)

(** No element is less than one that comes before it. *)
Definition sorted {T : Type} (less : T → T → bool) (l : list T) : Prop :=
  ∀ i j x y, (i < j)%nat → l !! i = Some x → l !! j = Some y → less y x = false.

(** The renderings joined by the separator. *)
Fixpoint joined (separator : string) (parts : list string) : string :=
  match parts with
  | [] => EmptyString
  | [p] => p
  | p :: parts => p +:+ separator +:+ joined separator parts
  end.

(** The number of elements held by the groups of a map. *)
Definition grouped `{Countable K} {V : Type} (m : gmap K (list V)) : nat :=
  map_fold (fun _ g n => (length g + n)%nat) 0%nat m.

(** The results of a run of [ParallelStream] lie in input order: what was
    collected, then what [resultChan] buffers, then what the goroutines still
    have to send, then what the caller has not handed out yet. *)
Definition in_order {T R : Type} (mapper : T → R) (input : list T)
    (st : @parallel.state T R) : Prop :=
  parallel.collected (parallel.pc st) ++ parallel.resultChan st
    ++ (mapper <$> omap parallel.unsent (parallel.goroutines st))
    ++ (mapper <$> parallel.pending (parallel.pc st))
  = mapper <$> input.

(** Goroutines that are at the call of [mapper] and the send of its result. *)
Definition sending {T : Type} (gs : list (@parallel.goroutine T)) : Z :=
  len (omap parallel.unsent gs).

(** [EnumSet] over the store of backing arrays: the set is the header of its
    field [values]; [FromValues] keeps the header it is given and [Add]
    appends to it. *)
Module enum_mem.
Section EnumSetMemory.
Context {V : Type}.
Variable zero : V.
Variable growslice_spare : nat → nat → nat.

Definition FromValues (values : mem.slice) : mem.slice := values.

Definition Add (s : mem.slice) (e : V) : mem.M mem.slice :=
  mem.append zero growslice_spare s [e].

Definition Values (s : mem.slice) : mem.slice := s.

End EnumSetMemory.
End enum_mem.

(** * Properties *)

(** ** The loops as list functions *)

Section LoopFacts.
Context {T R : Type}.

Lemma foldl_append_map (f : T → R) (l : list T) (acc : list R) :
  foldl (fun result e => result ++ [f e]) acc l = acc ++ (f <$> l).
Proof.
  revert acc. induction l as [|e l IH]; intros acc; simpl.
  - by rewrite app_nil_r.
  - by rewrite IH, <- app_assoc.
Qed.

Lemma foldl_append_bind (f : T → list R) (l : list T) (acc : list R) :
  foldl (fun result e => result ++ f e) acc l = acc ++ (l ≫= f).
Proof.
  revert acc. induction l as [|e l IH]; intros acc; simpl.
  - by rewrite app_nil_r.
  - by rewrite IH, <- app_assoc.
Qed.

Lemma foldl_append_filter (p : T → bool) (l : list T) (acc : list T) :
  foldl (fun result e => if p e then result ++ [e] else result) acc l
  = acc ++ filter (fun e => p e) l.
Proof.
  revert acc. induction l as [|e l IH]; intros acc; simpl.
  - by rewrite app_nil_r.
  - rewrite IH. destruct (p e) eqn:He.
    + rewrite filter_cons_True by (by rewrite He). by rewrite <- app_assoc.
    + rewrite filter_cons_False by (rewrite He; exact id). done.
Qed.

End LoopFacts.

Lemma Filter_elements {T : Type} (s : Stream T) (predicate : T → bool) :
  elements (Filter s predicate) = filter (fun e => predicate e) (elements s).
Proof. unfold Filter. simpl. by rewrite foldl_append_filter. Qed.

Lemma Map_elements {T R : Type} (s : Stream T) (mapper : T → R) :
  elements (Map s mapper) = mapper <$> elements s.
Proof. unfold Map. simpl. by rewrite foldl_append_map. Qed.

Lemma FlatMap_elements {T R : Type} (s : Stream T) (mapper : T → list R) :
  elements (FlatMap s mapper) = elements s ≫= mapper.
Proof. unfold FlatMap. simpl. by rewrite foldl_append_bind. Qed.

(** ** Construction and collection *)

(** C10: collecting a stream built from a slice gives the slice back;
    [ToSlice], the method [Collect] and the function [Collect] all return the
    elements handed to [NewStream], in the same order and number. *)
Theorem ToSlice_NewStream {T : Type} (xs : list T) :
  ToSlice (NewStream xs) = xs ∧ Collect (NewStream xs) = xs
  ∧ Count (NewStream xs) = len xs.
Proof. done. Qed.

(** ** FindFirst and FindAny *)

(** C6: [FindFirst] and [FindAny] agree on every stream: both wrap the first
    element when there is one and return the empty Optional otherwise; they
    are total, so neither can fail. *)
Theorem FindFirst_FindAny {T : Type} (s : Stream T) :
  FindAny s = FindFirst s
  ∧ FindFirst s = from_option optional.Of optional.Empty (head (elements s))
  ∧ optional.IsPresent (FindFirst s) = bool_decide (elements s ≠ []).
Proof.
  unfold FindAny, FindFirst. destruct (elements s) as [|e0 l]; simpl; done.
Qed.

(** ** Map *)

(** C8: mapping with [f] and then with [g] is mapping with their composition,
    and [Map] returns the images of the elements in the order of the input,
    hence a stream of the same length. *)
Theorem Map_Map {T R U : Type} (s : Stream T) (f : T → R) (g : R → U) :
  Map (Map s f) g = Map s (g ∘ f)
  ∧ elements (Map s f) = f <$> elements s
  ∧ length (elements (Map s f)) = length (elements s)
  ∧ ∀ i, elements (Map s f) !! i = f <$> (elements s !! i).
Proof.
  assert (Hf : elements (Map s f) = f <$> elements s) by apply Map_elements.
  split_and!.
  - unfold Map at 1 3. f_equal. rewrite !foldl_append_map, Hf. simpl.
    by rewrite <- list_fmap_compose.
  - done.
  - by rewrite Hf, length_fmap.
  - intros i. by rewrite Hf, list_lookup_fmap.
Qed.

(** ** Limit *)

Lemma Limit_nonnegative {T : Type} (s : Stream T) (n : Z) :
  0 ≤ n →
  Limit s n = Ok (NewStream (take (Z.to_nat n) (elements s))).
Proof.
  intros Hn. unfold Limit, slice_to, len. destruct s as [l]; simpl.
  case_decide as Hge.
  - rewrite take_ge by lia. done.
  - rewrite decide_True by lia. done.
Qed.

Lemma Limit_first_min {T : Type} (s : Stream T) (n : Z) :
  0 ≤ n →
  ∃ out, Limit s n = Ok out
         ∧ elements out = take (Z.to_nat (n `min` len (elements s))) (elements s).
Proof.
  intros Hn. eexists. split; [by apply Limit_nonnegative|]. simpl. unfold len.
  destruct (decide (n ≤ Z.of_nat (length (elements s)))).
  - by rewrite Z.min_l.
  - rewrite Z.min_r, Nat2Z.id, !take_ge by lia. done.
Qed.

Lemma Limit_zero {T : Type} (s : Stream T) :
  ∃ out, Limit s 0 = Ok out ∧ elements out = [].
Proof. eexists. split; [by apply Limit_nonnegative|]. done. Qed.

Lemma Limit_all {T : Type} (s : Stream T) (n : Z) :
  len (elements s) ≤ n → Limit s n = Ok s.
Proof. intros Hn. unfold Limit. by rewrite decide_True by lia. Qed.

Lemma Limit_negative {T : Type} (s : Stream T) (n : Z) :
  n < 0 → Limit s n = Panic.
Proof.
  intros Hn. unfold Limit, slice_to, len.
  rewrite decide_False by lia. by rewrite decide_False by lia.
Qed.

(** C2: [Limit] at a negative [n] does not yield the empty stream: on the
    stream 1, 2, 3 with [n = -1] the slice expression [elements[:n]] panics,
    whereas [n = 0] gives the empty stream, [n = 2] the first two elements and
    [n = 3] or more the stream itself. *)
Theorem Limit_negative_panics :
  Limit (NewStream [1; 2; 3]) (-1) = Panic
  ∧ Limit (NewStream [1; 2; 3]) 0 = Ok (NewStream [])
  ∧ Limit (NewStream [1; 2; 3]) 2 = Ok (NewStream [1; 2])
  ∧ Limit (NewStream [1; 2; 3]) 7 = Ok (NewStream [1; 2; 3]).
Proof. done. Qed.

(** ** The empty stream *)

Lemma Limit_empty_nonnegative {T : Type} (n : Z) :
  0 ≤ n → Limit (NewStream ([] : list T)) n = Ok (NewStream []).
Proof. intros Hn. unfold Limit, len. simpl. by rewrite decide_True by lia. Qed.

(** Every operation other than [Limit] returns on the empty stream, whatever
    its other arguments are. *)
Lemma empty_stream_results {T R : Type} `{Countable K}
    (predicate : T → bool) (mapper : T → R) (flat : T → list R)
    (less : T → T → bool) (xorshift_Next : Z → Z) (Sprintf_v : T → string)
    (reducer : T → T → T) (initialValue : T) (separator : string)
    (keyMapper : T → K) (valueMapper : T → R) (hashable : K → bool) :
  let empty : Stream T := NewStream [] in
  Filter empty predicate = NewStream []
  ∧ Map empty mapper = NewStream []
  ∧ FlatMap empty flat = NewStream []
  ∧ Sort xorshift_Next empty less = Ok (NewStream [])
  ∧ Distinct Sprintf_v empty = NewStream []
  ∧ Reduce empty reducer initialValue = initialValue
  ∧ FindFirst empty = optional.Empty
  ∧ FindAny empty = optional.Empty
  ∧ Count empty = 0
  ∧ Join Sprintf_v empty separator = EmptyString
  ∧ GroupBy empty keyMapper = ∅
  ∧ GroupByWithValueMapper empty keyMapper valueMapper = ∅
  ∧ Stream_GroupBy hashable empty keyMapper = Ok ∅
  ∧ Stream_GroupByAndTransform hashable empty keyMapper keyMapper = Ok ∅.
Proof. simpl. split_and!; reflexivity. Qed.

(** C3: the operations are not all total on the empty stream: [Limit] on the
    empty stream with [n = -1] panics at the slice expression [elements[:n]]
    instead of returning an empty stream (with [n = 0] or [n = 5] it returns
    the empty stream). *)
Theorem Limit_empty_negative_panics :
  Limit (NewStream ([] : list Z)) (-1) = Panic
  ∧ Limit (NewStream ([] : list Z)) 0 = Ok (NewStream [])
  ∧ Limit (NewStream ([] : list Z)) 5 = Ok (NewStream []).
Proof. done. Qed.

(** ** GroupBy *)

Section GroupFacts.
Context {T V : Type} `{Countable K}.

Lemma map_append_lookup (m : gmap K (list V)) (key k : K) (v : V) :
  default [] (map_append m key v !! k)
  = default [] (m !! k) ++ (if decide (key = k) then [v] else []).
Proof.
  unfold map_append. destruct (decide (key = k)) as [->|Hne].
  - by rewrite lookup_insert_eq.
  - rewrite lookup_insert_ne by done. by rewrite app_nil_r.
Qed.

Lemma group_loop_lookup (keyMapper : T → K) (valueMapper : T → V)
    (l : list T) (m : gmap K (list V)) (k : K) :
  default [] (foldl (fun result e => map_append result (keyMapper e) (valueMapper e))
                    m l !! k)
  = default [] (m !! k)
    ++ (valueMapper <$> filter (fun e => keyMapper e = k) l).
Proof.
  revert m. induction l as [|e l IH]; intros m; simpl.
  - by rewrite app_nil_r.
  - rewrite IH, map_append_lookup. destruct (decide (keyMapper e = k)) as [Hk|Hk].
    + rewrite filter_cons_True by done. simpl. by rewrite <- app_assoc.
    + rewrite filter_cons_False by done. by rewrite app_nil_r.
Qed.

Lemma group_loop_dom (keyMapper : T → K) (valueMapper : T → V)
    (l : list T) (m : gmap K (list V)) (k : K) :
  is_Some (foldl (fun result e => map_append result (keyMapper e) (valueMapper e))
                 m l !! k)
  ↔ is_Some (m !! k) ∨ k ∈ (keyMapper <$> l).
Proof.
  revert m. induction l as [|e l IH]; intros m; simpl.
  - rewrite elem_of_nil. tauto.
  - rewrite IH, elem_of_cons. unfold map_append.
    destruct (decide (keyMapper e = k)) as [<-|Hk].
    + rewrite lookup_insert_eq. split; intros _; [right; by left | left; eauto].
    + rewrite lookup_insert_ne by done.
      split; (intros [?|?]; [by left | right]); [by right | intuition congruence].
Qed.

End GroupFacts.





(** ** The worked scenarios of the specification *)

Example Filter_even_numbers :
  Filter (NewStream [1; 2; 3; 4; 5]) Z.even = NewStream [2; 4].
Proof. reflexivity. Qed.

Example Reduce_sum :
  Reduce (NewStream [1; 2; 3; 4; 5]) Z.add 0 = 15
  ∧ Reduce (NewStream []) Z.add 10 = 10.
Proof. split; reflexivity. Qed.

Example Join_letters :
  Join id (NewStream ["a"; "b"; "c"]) "," = "a,b,c"
  ∧ Join id (NewStream []) "," = EmptyString
  ∧ Join id (NewStream ["x"]) "," = "x".
Proof. split_and!; reflexivity. Qed.

Example GroupBy_age :
  let people := NewStream [(25, "A"); (30, "B"); (25, "C")] in
  GroupBy people fst !! 25 = Some [(25, "A"); (25, "C")]
  ∧ GroupBy people fst !! 30 = Some [(30, "B")]
  ∧ GroupBy people fst !! 40 = None.
Proof. split_and!; reflexivity. Qed.

Example Distinct_numbers :
  Distinct (fun n : Z => if decide (n = 1) then "1" else if decide (n = 2) then "2"
                         else if decide (n = 3) then "3" else "4")
    (NewStream [1; 2; 2; 3; 1; 4; 3])
  = NewStream [1; 2; 3; 4].
Proof. reflexivity. Qed.

Example Sort_numbers (xorshift_Next : Z → Z) :
  Sort xorshift_Next (NewStream [3; 1; 4; 2]) Z.ltb = Ok (NewStream [1; 2; 3; 4]).
Proof. reflexivity. Qed.

(** ** Distinct *)

Section DistinctFacts.
Context {T : Type}.
Variable render : T → string.

Lemma first_occurrences_filter (Q : string → Prop) `{!∀ k, Decision (Q k)} (l : list T) :
  first_occurrences render (filter (fun e => Q (render e)) l)
  = filter (fun e => Q (render e)) (first_occurrences render l).
Proof.
  induction l as [|e l IH]; [done|]. simpl.
  destruct (decide (Q (render e))) as [HQ|HQ].
  - rewrite !filter_cons_True by done. simpl. rewrite IH. f_equal.
    rewrite !list_filter_filter. apply list_filter_iff. tauto.
  - rewrite !filter_cons_False by done. rewrite IH.
    symmetry. apply list_filter_filter_l. intros x Hx Heq. by rewrite Heq in Hx.
Qed.

Lemma Distinct_loop (l : list T) (uniqueMap : gmap string bool) (result : list T) :
  snd (foldl (Distinct_step render) (uniqueMap, result) l)
  = result
    ++ first_occurrences render (filter (fun e => uniqueMap !! render e = None) l).
Proof.
  revert uniqueMap result. induction l as [|e l IH]; intros m res; simpl.
  - by rewrite app_nil_r.
  - destruct (m !! render e) as [b|] eqn:Hm.
    + rewrite IH. by rewrite filter_cons_False by (by rewrite Hm).
    + rewrite IH. rewrite filter_cons_True by done. simpl.
      rewrite <- app_assoc. simpl. do 2 f_equal.
      etrans; [|exact (first_occurrences_filter (fun k => k ≠ render e) _)].
      rewrite list_filter_filter. f_equal. apply list_filter_iff.
      intros x. destruct (decide (render e = render x)) as [Heq|Hne].
      * rewrite <- Heq, lookup_insert_eq. split; [done|]. intros [? _]. done.
      * rewrite lookup_insert_ne by done. split; [|tauto]. intros ?.
        split; [congruence|done].
Qed.

Lemma Distinct_elements (s : Stream T) :
  elements (Distinct render s) = first_occurrences render (elements s).
Proof.
  unfold Distinct. simpl. rewrite Distinct_loop. simpl. f_equal.
  induction (elements s) as [|e l IH]; [done|].
  rewrite filter_cons_True by apply lookup_empty. by rewrite IH.
Qed.

Lemma first_occurrences_idemp (l : list T) :
  first_occurrences render (first_occurrences render l) = first_occurrences render l.
Proof.
  induction l as [|e l IH]; [done|]. simpl. f_equal.
  etrans; [apply (f_equal (filter (fun e' => render e' ≠ render e)));
           exact (first_occurrences_filter (fun k => k ≠ render e) _)|].
  rewrite IH. apply list_filter_filter_l. done.
Qed.

Lemma first_occurrences_sublist (l : list T) :
  first_occurrences render l `sublist_of` l.
Proof.
  induction l as [|e l IH]; [done|]. simpl. apply sublist_skip.
  etrans; [apply sublist_filter|done].
Qed.

Lemma first_occurrences_NoDup (l : list T) :
  NoDup (render <$> first_occurrences render l).
Proof.
  induction l as [|e l IH]; simpl; [constructor|].
  apply NoDup_cons. split.
  - rewrite list_elem_of_fmap. intros (x & Hx & Hin).
    apply list_elem_of_filter in Hin as [Hne _]. done.
  - eapply sublist_NoDup; [exact IH|]. apply fmap_sublist, sublist_filter.
Qed.

(** Every rendering that occurs in the input is still represented. *)
Lemma first_occurrences_complete (l : list T) (e : T) :
  e ∈ l → render e ∈ (render <$> first_occurrences render l).
Proof.
  induction l as [|x l IH]; [by rewrite elem_of_nil|].
  rewrite elem_of_cons. simpl. intros [->|Hin]; [apply elem_of_cons; by left|].
  destruct (decide (render e = render x)) as [Heq|Hne].
  - rewrite Heq. apply elem_of_cons. by left.
  - apply elem_of_cons. right. specialize (IH Hin).
    apply list_elem_of_fmap in IH as (y & Hy & Hyin).
    apply list_elem_of_fmap. exists y. split; [done|].
    apply list_elem_of_filter. split; [congruence|done].
Qed.

End DistinctFacts.

(** C9: [Distinct] is idempotent; it keeps the first occurrence of each
    element, elements being compared by their rendering under [%v], in the
    order of these first occurrences, so its result is a subsequence of the
    input without two elements of equal rendering and is no longer than the
    input. *)
Theorem Distinct_idempotent {T : Type} (Sprintf_v : T → string) (s : Stream T) :
  Distinct Sprintf_v (Distinct Sprintf_v s) = Distinct Sprintf_v s
  ∧ elements (Distinct Sprintf_v s) = first_occurrences Sprintf_v (elements s)
  ∧ elements (Distinct Sprintf_v s) `sublist_of` elements s
  ∧ NoDup (Sprintf_v <$> elements (Distinct Sprintf_v s))
  ∧ (length (elements (Distinct Sprintf_v s)) ≤ length (elements s))%nat.
Proof.
  assert (He := Distinct_elements Sprintf_v s).
  split_and!.
  - assert (Hd := Distinct_elements Sprintf_v (Distinct Sprintf_v s)).
    rewrite He, first_occurrences_idemp, <- He in Hd.
    destruct (Distinct Sprintf_v (Distinct Sprintf_v s)), (Distinct Sprintf_v s).
    simpl in Hd. by rewrite Hd.
  - done.
  - rewrite He. apply first_occurrences_sublist.
  - rewrite He. apply first_occurrences_NoDup.
  - rewrite He. apply sublist_length, first_occurrences_sublist.
Qed.

(** ** sort.Slice only rearranges *)

Section SortPermutation.
Context {T : Type}.
Variable less : T → T → bool.
Variable xorshift_Next : Z → Z.
Variable gas : nat.
Implicit Types (data : list T).

Lemma perm_via_bind {A B : Type} (pa : A → list T) (pb : B → list T) data
    (m : outcome A) (k : A → outcome B) :
  perm_via pa data m →
  (∀ a, pa a ≡ₚ data → perm_via pb data (k a)) →
  perm_via pb data (m ≫= k).
Proof. destruct m; simpl; auto. Qed.

Lemma perm_via_bind_pure {A B : Type} (pb : B → list T) data
    (m : outcome A) (k : A → outcome B) :
  (∀ a, perm_via pb data (k a)) → perm_via pb data (m ≫= k).
Proof. destruct m; simpl; auto. Qed.

Lemma perm_via_mono {A : Type} (pa : A → list T) data data' (m : outcome A) :
  perm_via pa data' m → data' ≡ₚ data → perm_via pa data m.
Proof. destruct m; simpl; [|done|done]. intros -> ->. done. Qed.

Lemma Swap_perm data i j : perm_via id data (sort.Swap data i j).
Proof.
  unfold sort.Swap, sort.index.
  destruct (decide (0 ≤ i)); simpl; [|done].
  destruct (data !! Z.to_nat i) as [x|] eqn:Hx; simpl; [|done].
  destruct (decide (0 ≤ j)); simpl; [|done].
  destruct (data !! Z.to_nat j) as [y|] eqn:Hy; simpl; [|done].
  by apply Permutation_insert_swap.
Qed.

(** A loop that consists of comparisons and calls that rearrange. *)
Ltac rearranges IH :=
  repeat first
    [ done
    | progress simpl
    | case_decide
    | match goal with
      | |- perm_via _ _ (if ?b then _ else _) => destruct b
      | |- perm_via _ _ (match ?h with sort.unknownHint => _ | _ => _ end) => destruct h
      | |- perm_via _ ?data (sort.Swap ?data _ _ ≫= _) =>
          eapply (perm_via_bind id); [apply Swap_perm|intros ? ?]
      | |- perm_via _ _ (sort.Less _ _ _ _ ≫= _) =>
          apply perm_via_bind_pure; intros ?
      | |- perm_via _ ?data (_ ?data' _ _) =>
          eapply perm_via_mono; [apply IH|]
      | |- perm_via _ ?data (_ ?data' _ _ _) =>
          eapply perm_via_mono; [apply IH|]
      | |- perm_via _ ?data (_ ?data' _ _ _ _) =>
          eapply perm_via_mono; [apply IH|]
      end ].

Lemma insertionSort_shift_perm fuel : ∀ data a j,
  perm_via id data (sort.insertionSort_shift less fuel data a j).
Proof. induction fuel as [|fuel IH]; intros data a j; rearranges IH. Qed.

Lemma insertionSort_loop_perm fuel : ∀ data a b i,
  perm_via id data (sort.insertionSort_loop less gas fuel data a b i).
Proof.
  induction fuel as [|fuel IH]; intros data a b i; simpl; [done|].
  case_decide; [|by simpl].
  eapply (perm_via_bind id); [apply insertionSort_shift_perm|].
  intros d Hd. eapply perm_via_mono; [apply IH|done].
Qed.

Lemma insertionSort_func_perm data a b :
  perm_via id data (sort.insertionSort_func less gas data a b).
Proof. apply insertionSort_loop_perm. Qed.

Lemma siftDown_loop_perm fuel : ∀ data root hi first,
  perm_via id data (sort.siftDown_loop less fuel data root hi first).
Proof.
  induction fuel as [|fuel IH]; intros data root hi first; simpl; [done|].
  case_decide; [by simpl|].
  apply perm_via_bind_pure. intros child. rearranges IH.
Qed.

Lemma heapSort_build_perm fuel : ∀ data i hi first,
  perm_via id data (sort.heapSort_build less gas fuel data i hi first).
Proof.
  induction fuel as [|fuel IH]; intros data i hi first; simpl; [done|].
  case_decide; [|by simpl].
  eapply (perm_via_bind id); [apply siftDown_loop_perm|].
  intros d Hd. eapply perm_via_mono; [apply IH|done].
Qed.

Lemma heapSort_pop_perm fuel : ∀ data i lo first,
  perm_via id data (sort.heapSort_pop less gas fuel data i lo first).
Proof.
  induction fuel as [|fuel IH]; intros data i lo first; simpl; [done|].
  case_decide; [|by simpl].
  eapply (perm_via_bind id); [apply Swap_perm|]. intros d1 Hd1.
  eapply (perm_via_bind id);
    [eapply perm_via_mono; [apply siftDown_loop_perm|done]|].
  intros d2 Hd2. eapply perm_via_mono; [apply IH|done].
Qed.

Lemma heapSort_func_perm data a b :
  perm_via id data (sort.heapSort_func less gas data a b).
Proof.
  unfold sort.heapSort_func.
  eapply (perm_via_bind id); [apply heapSort_build_perm|].
  intros d Hd. eapply perm_via_mono; [apply heapSort_pop_perm|done].
Qed.

Lemma partition_loop_perm fuel : ∀ data a i j,
  perm_via fst data (sort.partition_loop less gas fuel data a i j).
Proof.
  induction fuel as [|fuel IH]; intros data a i j; simpl; [done|].
  apply perm_via_bind_pure. intros i'. apply perm_via_bind_pure. intros j'.
  case_decide; [by simpl|].
  eapply (perm_via_bind id); [apply Swap_perm|].
  intros d Hd. eapply perm_via_mono; [apply IH|done].
Qed.

Lemma partition_func_perm data a b pivot :
  perm_via (fun r => r.1.1) data (sort.partition_func less gas data a b pivot).
Proof.
  unfold sort.partition_func.
  eapply (perm_via_bind id); [apply Swap_perm|]. intros d0 Hd0.
  apply perm_via_bind_pure. intros i. apply perm_via_bind_pure. intros j.
  case_decide.
  - eapply (perm_via_bind id); [eapply perm_via_mono; [apply Swap_perm|done]|].
    intros d1 Hd1. by simpl.
  - eapply (perm_via_bind id); [eapply perm_via_mono; [apply Swap_perm|done]|].
    intros d1 Hd1.
    eapply (perm_via_bind fst);
      [eapply perm_via_mono; [apply partition_loop_perm|done]|].
    intros [d2 j2] Hd2. simpl in Hd2.
    eapply (perm_via_bind id); [eapply perm_via_mono; [apply Swap_perm|done]|].
    intros d3 Hd3. by simpl.
Qed.

Lemma partitionEqual_loop_perm fuel : ∀ data a i j,
  perm_via fst data (sort.partitionEqual_loop less gas fuel data a i j).
Proof.
  induction fuel as [|fuel IH]; intros data a i j; simpl; [done|].
  apply perm_via_bind_pure. intros i'. apply perm_via_bind_pure. intros j'.
  case_decide; [by simpl|].
  eapply (perm_via_bind id); [apply Swap_perm|].
  intros d Hd. eapply perm_via_mono; [apply IH|done].
Qed.

Lemma partitionEqual_func_perm data a b pivot :
  perm_via fst data (sort.partitionEqual_func less gas data a b pivot).
Proof.
  unfold sort.partitionEqual_func.
  eapply (perm_via_bind id); [apply Swap_perm|]. intros d0 Hd0.
  eapply perm_via_mono; [apply partitionEqual_loop_perm|done].
Qed.

Lemma partialInsertionSort_left_perm fuel : ∀ data j,
  perm_via id data (sort.partialInsertionSort_left less fuel data j).
Proof. induction fuel as [|fuel IH]; intros data j; rearranges IH. Qed.

Lemma partialInsertionSort_right_perm fuel : ∀ data b j,
  perm_via id data (sort.partialInsertionSort_right less fuel data b j).
Proof. induction fuel as [|fuel IH]; intros data b j; rearranges IH. Qed.

Lemma partialInsertionSort_loop_perm fuel : ∀ data a b i j,
  perm_via fst data (sort.partialInsertionSort_loop less gas fuel data a b i j).
Proof.
  induction fuel as [|fuel IH]; intros data a b i j; simpl; [done|].
  case_decide; [|by simpl].
  apply perm_via_bind_pure. intros i'.
  case_decide; [by simpl|]. case_decide; [by simpl|].
  eapply (perm_via_bind id); [apply Swap_perm|]. intros d1 Hd1.
  eapply (perm_via_bind id).
  { case_decide; [|exact Hd1].
    eapply perm_via_mono; [apply partialInsertionSort_left_perm|done]. }
  intros d2 Hd2.
  eapply (perm_via_bind id).
  { case_decide; [|exact Hd2].
    eapply perm_via_mono; [apply partialInsertionSort_right_perm|done]. }
  intros d3 Hd3. eapply perm_via_mono; [apply IH|done].
Qed.

Lemma partialInsertionSort_func_perm data a b :
  perm_via fst data (sort.partialInsertionSort_func less gas data a b).
Proof. apply partialInsertionSort_loop_perm. Qed.

Lemma breakPatterns_loop_perm fuel : ∀ data a length random modulus idx i,
  perm_via id data
    (sort.breakPatterns_loop xorshift_Next fuel data a length random modulus idx i).
Proof.
  induction fuel as [|fuel IH]; intros data a length random modulus idx i;
    simpl; [done|].
  case_decide; [|by simpl].
  eapply (perm_via_bind id); [apply Swap_perm|].
  intros d Hd. eapply perm_via_mono; [apply IH|done].
Qed.

Lemma breakPatterns_func_perm data a b :
  perm_via id data (sort.breakPatterns_func xorshift_Next gas data a b).
Proof.
  unfold sort.breakPatterns_func. case_decide; [|by simpl].
  apply breakPatterns_loop_perm.
Qed.

Lemma reverseRange_loop_perm fuel : ∀ data i j,
  perm_via id data (sort.reverseRange_loop fuel data i j).
Proof.
  induction fuel as [|fuel IH]; intros data i j; simpl; [done|].
  case_decide; [|by simpl].
  eapply (perm_via_bind id); [apply Swap_perm|].
  intros d Hd. eapply perm_via_mono; [apply IH|done].
Qed.

Lemma pdqsort_loop_perm fuel : ∀ data a b limit wasBalanced wasPartitioned,
  perm_via id data
    (sort.pdqsort_loop less xorshift_Next gas fuel data a b limit
       wasBalanced wasPartitioned).
Proof.
  induction fuel as [|fuel IH]; intros data a b limit wasBalanced wasPartitioned;
    simpl; [done|].
  case_decide; [apply insertionSort_func_perm|].
  case_decide; [apply heapSort_func_perm|].
  eapply (perm_via_bind fst).
  { destruct wasBalanced; simpl; [done|].
    eapply (perm_via_bind id); [apply breakPatterns_func_perm|]. by intros d Hd; simpl. }
  intros [d1 limit1] Hd1. simpl in Hd1.
  apply perm_via_bind_pure. intros [pivot hint].
  eapply (perm_via_bind (fun r => r.1.1)).
  { destruct hint; simpl; [exact Hd1|exact Hd1|].
    eapply (perm_via_bind id);
      [eapply perm_via_mono; [apply reverseRange_loop_perm|done]|].
    by intros d Hd; simpl. }
  intros [[d2 pivot2] hint2] Hd2. simpl in Hd2.
  eapply (perm_via_bind fst).
  { destruct (wasBalanced && wasPartitioned && sort.is_increasing hint2);
      [|exact Hd2].
    eapply perm_via_mono; [apply partialInsertionSort_func_perm|done]. }
  intros [d3 sorted] Hd3. simpl in Hd3.
  destruct sorted; [exact Hd3|].
  apply perm_via_bind_pure. intros equal. destruct equal.
  - eapply (perm_via_bind fst);
      [eapply perm_via_mono; [apply partitionEqual_func_perm|done]|].
    intros [d4 mid] Hd4. simpl in Hd4. eapply perm_via_mono; [apply IH|done].
  - eapply (perm_via_bind (fun r => r.1.1));
      [eapply perm_via_mono; [apply partition_func_perm|done]|].
    intros [[d4 mid] alreadyPartitioned] Hd4. simpl in Hd4.
    case_decide.
    + eapply (perm_via_bind id); [eapply perm_via_mono; [apply IH|done]|].
      intros d5 Hd5. eapply perm_via_mono; [apply IH|done].
    + eapply (perm_via_bind id); [eapply perm_via_mono; [apply IH|done]|].
      intros d5 Hd5. eapply perm_via_mono; [apply IH|done].
Qed.

(** Whatever its length, a slice that [sort.Slice] returns holds the
    elements it was given. *)
Lemma Slice_perm data : perm_via id data (sort.Slice less xorshift_Next gas data).
Proof. apply pdqsort_loop_perm. Qed.

End SortPermutation.


(** ** sort.Slice returns

    With the iteration budget [sort_gas], no loop of [sort.Slice] runs out of
    budget and no index leaves the slice, whatever [less] answers. *)

Section SortReturns.
Context {T : Type}.
Variable less : T → T → bool.
Variable xorshift_Next : Z → Z.
Variable gas : nat.
Implicit Types (data : list T).































Lemma quot_4 (l : Z) : 0 ≤ l → 4 * (l `quot` 4) ≤ l < 4 * (l `quot` 4) + 4.
Proof.
  intros Hl. rewrite Z.quot_div_nonneg by lia.
  pose proof (Z.div_mod l 4 ltac:(lia)). pose proof (Z.mod_pos_bound l 4 ltac:(lia)).
  lia.
Qed.







End SortReturns.


(** ** Sort *)

Section BeforeFacts.
Context {T : Type}.
Implicit Types (a b x : T) (l : list T).






End BeforeFacts.

Section InsertionSort.
Context {T : Type}.
Variable less : T → T → bool.
Variable gas : nat.
Implicit Types (x y : T) (pre post data : list T).

Lemma index_middle pre x post :
  sort.index (pre ++ x :: post) (len pre) = Ok x.
Proof.
  unfold sort.index, len. rewrite decide_True by lia.
  by rewrite Nat2Z.id, list_lookup_middle.
Qed.

Lemma lookup_adjacent pre y x post :
  (pre ++ y :: x :: post) !! length pre = Some y
  ∧ (pre ++ y :: x :: post) !! S (length pre) = Some x.
Proof.
  split; [by apply list_lookup_middle|].
  rewrite (cons_middle y), app_assoc. apply list_lookup_middle.
  rewrite length_app. simpl. lia.
Qed.

Lemma Less_adjacent pre y x post :
  sort.Less less (pre ++ y :: x :: post) (len pre + 1) (len pre + 1 - 1)
  = Ok (less x y).
Proof.
  destruct (lookup_adjacent pre y x post) as [Hy Hx].
  unfold sort.Less, sort.index, len. rewrite !decide_True by lia.
  replace (Z.to_nat (Z.of_nat (length pre) + 1)) with (S (length pre)) by lia.
  replace (Z.to_nat (Z.of_nat (length pre) + 1 - 1)) with (length pre) by lia.
  by rewrite Hx, Hy.
Qed.

Lemma Swap_adjacent pre y x post :
  sort.Swap (pre ++ y :: x :: post) (len pre + 1) (len pre + 1 - 1)
  = Ok (pre ++ x :: y :: post).
Proof.
  destruct (lookup_adjacent pre y x post) as [Hy Hx].
  unfold sort.Swap, sort.index, len. rewrite !decide_True by lia.
  replace (Z.to_nat (Z.of_nat (length pre) + 1)) with (S (length pre)) by lia.
  replace (Z.to_nat (Z.of_nat (length pre) + 1 - 1)) with (length pre) by lia.
  rewrite Hx, Hy. simpl. f_equal.
  rewrite (insert_app_r_alt _ _ (S (length pre))) by lia.
  replace (S (length pre) - length pre)%nat with 1%nat by lia. simpl.
  rewrite (insert_app_r_alt _ _ (length pre)) by lia.
  by rewrite Nat.sub_diag.
Qed.





End InsertionSort.

Lemma Slice_insertionSort {T : Type} (less : T → T → bool) (xorshift_Next : Z → Z)
    (gas : nat) (x : list T) :
  len x ≤ sort.maxInsertion →
  sort.Slice less xorshift_Next (S gas) x
  = sort.insertionSort_func less (S gas) x 0 (len x).
Proof.
  intros Hlen. unfold sort.Slice, sort.pdqsort_func. simpl.
  rewrite decide_True by lia. done.
Qed.




Example Sort_four :
  Sort (fun r => r) (NewStream [(2, "a"); (1, "b"); (2, "c"); (1, "d")]) by_rank
  = Ok (NewStream [(1, "b"); (1, "d"); (2, "a"); (2, "c")]).
Proof. vm_compute. reflexivity. Qed.



(** ** ParallelStream *)

Section ParallelFacts.
Context {T R : Type}.
Variable GOMAXPROCS : Z.
Variable mapper : T → R.
Hypothesis GOMAXPROCS_positive : 0 < GOMAXPROCS.

Abbreviation state := (@parallel.state T R).
Abbreviation step := (parallel.step mapper).
Abbreviation inv := (parallel.inv mapper).
Abbreviation steps_left := (@parallel.steps_left T R).

Lemma default_maxGoroutines_positive (maxGoroutines : Z) :
  0 < parallel.default_maxGoroutines GOMAXPROCS maxGoroutines.
Proof using GOMAXPROCS_positive.
  unfold parallel.default_maxGoroutines. case_decide; lia.
Qed.

(** *** The scheduler functions take steps of the relation *)

Lemma goroutine_split (gs : list (@parallel.goroutine T)) i g :
  gs !! i = Some g →
  gs = take i gs ++ g :: drop (S i) gs
  ∧ (∀ g', <[i := g']> gs = take i gs ++ g' :: drop (S i) gs)
  ∧ delete i gs = take i gs ++ drop (S i) gs.
Proof.
  intros Hi. split_and!.
  - by rewrite take_drop_middle.
  - intros g'. apply insert_take_drop. by eapply lookup_lt_Some.
  - apply delete_take_drop.
Qed.

Lemma thread_step_sound maxGoroutines capacity t (st st' : state) :
  parallel.thread_step mapper maxGoroutines capacity t st = Some st' →
  step maxGoroutines capacity st st'.
Proof.
  destruct st as [p w s c cl gs]. destruct t as [|i]; simpl.
  - destruct p as [[|e rest]|e rest|e rest| | |result|out|]; simpl;
      repeat case_decide; try destruct c; try destruct cl; intros [= <-]; subst;
      by constructor.
  - destruct (gs !! i) as [g|] eqn:Hi; [|done].
    destruct (goroutine_split gs i g Hi) as (Hgs & Hins & Hdel).
    rewrite Hdel. rewrite !Hins. rewrite Hgs at 1.
    destruct g as [el| |].
    + destruct cl; [intros [= <-]; apply parallel.step_send_closed|].
      case_decide; intros [= <-]. by apply parallel.step_send.
    + case_decide; intros [= <-]. by apply parallel.step_release.
    + case_decide; intros [= <-].
      * by apply parallel.step_done.
      * apply parallel.step_done_negative. lia.
Qed.

Lemma schedule_run_sound maxGoroutines capacity schedule : ∀ (st st' : state),
  parallel.schedule_run mapper maxGoroutines capacity schedule st = Some st' →
  rtc (step maxGoroutines capacity) st st'.
Proof.
  induction schedule as [|t schedule IH]; intros st st'; simpl.
  - intros [= <-]. done.
  - destruct (parallel.thread_step mapper maxGoroutines capacity t st)
      as [st1|] eqn:Ht; [|done]. simpl. intros Hrun.
    eapply rtc_l; [by eapply thread_step_sound|by apply IH].
Qed.

(** *** Every run is finite *)

Lemma step_steps_left maxGoroutines capacity (st st' : state) :
  step maxGoroutines capacity st st' → (steps_left st' < steps_left st)%nat.
Proof.
  destruct 1; unfold parallel.steps_left; simpl;
    rewrite ?sum_list_with_app, ?length_app; simpl; lia.
Qed.

Lemma nsteps_steps_left maxGoroutines capacity n (st st' : state) :
  nsteps (step maxGoroutines capacity) n st st' →
  (n + steps_left st' ≤ steps_left st)%nat.
Proof.
  induction 1 as [|n x y z Hstep _ IH]; [lia|].
  apply step_steps_left in Hstep. lia.
Qed.

(** *** The invariant *)

Lemma tokens_app (gs1 gs2 : list (@parallel.goroutine T)) :
  parallel.tokens (gs1 ++ gs2) = parallel.tokens gs1 + parallel.tokens gs2.
Proof. unfold parallel.tokens, len. rewrite filter_app, length_app. lia. Qed.

Lemma tokens_cons (g : @parallel.goroutine T) gs :
  parallel.tokens (g :: gs)
  = (if parallel.holds_token g then 1 else 0) + parallel.tokens gs.
Proof.
  unfold parallel.tokens, len. rewrite filter_cons.
  destruct (parallel.holds_token g); simpl; lia.
Qed.

Lemma tokens_nil : parallel.tokens ([] : list (@parallel.goroutine T)) = 0.
Proof. done. Qed.

Lemma inv_init (input : list T) : inv input (parallel.init (NewStream input)).
Proof.
  unfold parallel.inv, parallel.init. simpl. done.
Qed.

(** While a spawned goroutine is running, the caller is inside its loop or
    at [wg.Wait()], and the channel is open. *)
Lemma main_ok_running p cl (gs : list (@parallel.goroutine T)) (c : list R) :
  gs ≠ [] → parallel.main_ok p cl gs c →
  cl = false ∧ ∀ gs' c', parallel.main_ok p false gs' c'.
Proof.
  intros Hgs Hok.
  destruct p; simpl in *.
  - by split.
  - by split.
  - by split.
  - by split.
  - by destruct Hok as [_ ?].
  - by destruct Hok as [_ ?].
  - by destruct Hok as (_ & ? & _).
  - done.
Qed.

Lemma inv_step maxGoroutines (input : list T) (st st' : state) :
  inv input st → step maxGoroutines (len input) st st' → inv input st'.
Proof.
  intros (Hperm & Hwg & Hsem & Hpc) Hstep.
  destruct Hstep; unfold parallel.inv in *; simpl in *;
    rewrite ?omap_app, ?tokens_app, ?tokens_cons, ?tokens_nil in *; simpl in *;
    rewrite ?fmap_app in *; simpl in *.
  - repeat split; try done; lia.
  - repeat split; try done; lia.
  - repeat split; try done; try lia.
    + rewrite <- Hperm. by rewrite <- !app_assoc.
    + unfold len in *. rewrite length_app. simpl. lia.
  - repeat split; try done; lia.
  - repeat split; try done; try lia.
    destruct gs; [done|]. unfold len in Hwg. simpl in Hwg. lia.
  - destruct Hpc as [_ ->]. simpl in *. repeat split; try done; lia.
  - destruct Hpc as [? ->]. simpl in *. repeat split; try done; try lia.
    rewrite <- Hperm. by rewrite <- !app_assoc.
  - destruct Hpc as [_ ->]. simpl in *. rewrite app_nil_r in Hperm.
    rewrite app_nil_r. repeat split; try done; lia.
  - apply main_ok_running in Hpc as [_ Hpc]; [|by destruct gs1].
    repeat split; [| |lia|apply Hpc].
    + rewrite <- Hperm. rewrite <- !app_assoc. simpl.
      rewrite <- !Permutation_middle. done.
    + unfold len in *. rewrite !length_app in *. simpl in *. lia.
  - apply main_ok_running in Hpc as [[=] _]. by destruct gs1.
  - apply main_ok_running in Hpc as [-> Hpc]; [|by destruct gs1].
    repeat split; [done| |lia|apply Hpc].
    unfold len in *. rewrite !length_app in *. simpl in *. lia.
  - apply main_ok_running in Hpc as [-> Hpc]; [|by destruct gs1].
    repeat split; [done| |lia|apply Hpc].
    unfold len in *. rewrite !length_app in *. simpl in *. lia.
  - exfalso. unfold len in *. rewrite length_app in *. simpl in *.
    destruct p; simpl in *; lia.
Qed.

Lemma reachable_inv (s : Stream T) maxGoroutines (st : state) :
  parallel.reachable GOMAXPROCS mapper s maxGoroutines st → inv (elements s) st.
Proof.
  unfold parallel.reachable. revert st. apply rtc_ind_r.
  - destruct s. apply inv_init.
  - intros st st' _ Hstep IH. eapply inv_step; [exact IH|exact Hstep].
Qed.

(** *** No run gets stuck *)

Lemma tokens_nonnegative (gs : list (@parallel.goroutine T)) : 0 ≤ parallel.tokens gs.
Proof. unfold parallel.tokens, len. lia. Qed.

Lemma tokens_positive (gs : list (@parallel.goroutine T)) :
  0 < parallel.tokens gs →
  ∃ gs1 g gs2, gs = gs1 ++ g :: gs2 ∧ parallel.holds_token g = true.
Proof.
  unfold parallel.tokens, len. intros Hpos.
  destruct (filter (fun g => parallel.holds_token g) gs) as [|g l] eqn:Hf;
    [simpl in Hpos; lia|].
  assert (Hin : g ∈ filter (fun g => parallel.holds_token g) gs)
    by (rewrite Hf; apply elem_of_cons; by left).
  apply list_elem_of_filter in Hin as [Hg Hin].
  apply list_elem_of_split in Hin as (gs1 & gs2 & ->).
  exists gs1, g, gs2. split; [done|]. by apply Is_true_true.
Qed.

(** A goroutine that still has to send finds room in [resultChan]. *)
Lemma resultChan_room (input : list T) p c gs1 el gs2 :
  parallel.collected p ++ c
    ++ (mapper <$> omap parallel.unsent (gs1 ++ parallel.GSend el :: gs2))
    ++ (mapper <$> parallel.pending p)
  ≡ₚ mapper <$> input →
  len c < len input.
Proof.
  intros Hperm. apply Permutation_length in Hperm.
  rewrite omap_app in Hperm. simpl in Hperm.
  rewrite !length_app, !length_fmap, length_app in Hperm. simpl in Hperm.
  unfold len. lia.
Qed.

Lemma progress maxGoroutines (input : list T) (st : state) :
  0 < maxGoroutines → inv input st →
  (∃ out, parallel.pc st = parallel.MReturn out)
  ∨ ∃ st', step maxGoroutines (len input) st st'.
Proof.
  intros Hmax. destruct st as [p w s c cl gs].
  intros (Hperm & Hwg & Hsem & Hpc). simpl in *.
  assert (Hsend : ∀ gs1 el gs2, gs = gs1 ++ parallel.GSend el :: gs2 →
            ∃ st', step maxGoroutines (len input) (parallel.mkState p w s c cl gs) st').
  { intros gs1 el gs2 ->.
    apply main_ok_running in Hpc as [-> _]; [|by destruct gs1].
    eexists. apply parallel.step_send. by eapply resultChan_room. }
  destruct p as [rest|e rest|e rest| | |result|out|]; simpl in *.
  - right. destruct rest as [|e rest]; eexists.
    + apply parallel.step_range_end.
    + apply parallel.step_add.
  - right. destruct (decide (s < maxGoroutines)) as [Hlt|Hge].
    + eexists. by apply parallel.step_acquire.
    + destruct (tokens_positive gs) as (gs1 & g & gs2 & -> & Hg); [lia|].
      destruct g as [el| |]; [by eapply Hsend| |done].
      eexists. apply parallel.step_release. lia.
  - right. eexists. apply parallel.step_go.
  - right. destruct gs as [|g gs].
    + unfold len in Hwg. simpl in Hwg. subst w. eexists. apply parallel.step_wait.
    + destruct g as [el| |].
      * by eapply (Hsend []).
      * eexists. apply (parallel.step_release _ _ _ _ _ _ _ _ []).
        rewrite tokens_cons in Hsem. simpl in Hsem.
        pose proof (tokens_nonnegative gs). lia.
      * eexists. apply (parallel.step_done _ _ _ _ _ _ _ _ []).
        unfold len in Hwg. simpl in Hwg. lia.
  - right. eexists. apply parallel.step_close.
  - right. destruct Hpc as [-> ->]. destruct c as [|res c]; eexists.
    + apply parallel.step_collect_end.
    + apply parallel.step_collect.
  - left. by exists out.
  - done.
Qed.

Lemma returns_within n maxGoroutines (input : list T) (st : state) :
  0 < maxGoroutines → inv input st → (steps_left st ≤ n)%nat →
  ∃ st' out, rtc (step maxGoroutines (len input)) st st'
             ∧ parallel.pc st' = parallel.MReturn out.
Proof.
  intros Hmax. revert st. induction n as [|n IH]; intros st Hinv Hn;
    (destruct (progress maxGoroutines input st Hmax Hinv) as [[out Hout]|[st' Hstep]];
     [by exists st, out|]);
    pose proof (step_steps_left _ _ _ _ Hstep) as Hlt; [lia|].
  destruct (IH st') as (st'' & out & Hrtc & Hout); [by eapply inv_step|lia|].
  exists st'', out. split; [|done]. by eapply rtc_l.
Qed.

(** C4: whatever the concurrency budget, every schedule of [ParallelStream]
    runs to its return statement (no goroutine panics, no state is stuck and
    a run has at most [7 * len + 4] steps), and the stream it returns has as
    many elements as the input and holds, in some order, exactly the images
    of the input's elements under [mapper]. *)
Theorem ParallelStream_permutation (s : Stream T) (maxGoroutines : Z) :
  (∃ out, parallel.ParallelStream GOMAXPROCS mapper s maxGoroutines out)
  ∧ (∀ st, parallel.reachable GOMAXPROCS mapper s maxGoroutines st →
           (∃ out, parallel.pc st = parallel.MReturn out)
           ∨ ∃ st', parallel.run GOMAXPROCS mapper s maxGoroutines st st')
  ∧ (∀ n st, nsteps (parallel.run GOMAXPROCS mapper s maxGoroutines) n
                    (parallel.init s) st →
             (n ≤ 7 * length (elements s) + 4)%nat)
  ∧ (∀ out, parallel.ParallelStream GOMAXPROCS mapper s maxGoroutines out →
            length (elements out) = length (elements s)
            ∧ elements out ≡ₚ mapper <$> elements s).
Proof using GOMAXPROCS_positive.
  pose proof (default_maxGoroutines_positive maxGoroutines) as Hmax.
  split_and!.
  - destruct (returns_within (steps_left (parallel.init s))
                (parallel.default_maxGoroutines GOMAXPROCS maxGoroutines)
                (elements s) (parallel.init s)) as (st & out & Hrtc & Hout);
      [done|destruct s; apply inv_init|done|].
    exists out, st. done.
  - intros st Hreach. apply progress; [done|]. by eapply reachable_inv.
  - intros n st Hn. apply nsteps_steps_left in Hn.
    unfold parallel.steps_left at 2 in Hn. simpl in Hn. lia.
  - intros out (st & Hreach & Hout). apply reachable_inv in Hreach.
    destruct Hreach as (Hperm & _ & _ & Hpc). rewrite Hout in *. simpl in *.
    destruct Hpc as (_ & Hgs & Hc). rewrite Hgs, Hc in Hperm.
    simpl in Hperm. rewrite app_nil_r in Hperm.
    split; [|done]. apply Permutation_length in Hperm.
    by rewrite length_fmap in Hperm.
Qed.

End ParallelFacts.

Lemma ParallelStream_permutation_witness :
  0 < 8
  ∧ (∃ out, parallel.ParallelStream 8 (fun i => i * 2) (NewStream [1; 2; 3; 4; 5]) 2 out)
  ∧ (∀ out, parallel.ParallelStream 8 (fun i => i * 2) (NewStream [1; 2; 3; 4; 5]) 2 out →
            length (elements out) = 5%nat ∧ elements out ≡ₚ [2; 4; 6; 8; 10]).
Proof.
  split; [lia|].
  pose proof (ParallelStream_permutation 8 (fun i => i * 2) ltac:(lia)
                (NewStream [1; 2; 3; 4; 5]) 2) as (Hex & _ & _ & Hall).
  split; [exact Hex|exact Hall].
Defined.

(** The order of the results depends on the schedule: with two elements and a
    budget of two, the goroutine spawned second may send first. *)
Example ParallelStream_either_order :
  parallel.ParallelStream 8 (fun i => i * 2) (NewStream [1; 2]) 2 (NewStream [2; 4])
  ∧ parallel.ParallelStream 8 (fun i => i * 2) (NewStream [1; 2]) 2 (NewStream [4; 2]).
Proof.
  split.
  - eexists. split.
    + apply (schedule_run_sound _ _ _
               (replicate 7 parallel.Main ++ replicate 6 (parallel.Spawned 0)
                ++ replicate 5 parallel.Main)).
      vm_compute. reflexivity.
    + reflexivity.
  - eexists. split.
    + apply (schedule_run_sound _ _ _
               (replicate 7 parallel.Main ++ [parallel.Spawned 1]
                ++ replicate 5 (parallel.Spawned 0) ++ replicate 5 parallel.Main)).
      vm_compute. reflexivity.
    + reflexivity.
Qed.

(** ** The operations leave the receiver's memory alone *)

Section MemFacts.
Context {V : Type}.
Variable zero : V.
Variable growslice_spare : nat → nat → nat.
Implicit Types (h : list (list V)) (s : mem.slice) (xs arr : list V).

Lemma frame_refl h : mem.frame h h.
Proof. split; [lia|done]. Qed.

Lemma frame_trans h0 h1 h2 : mem.frame h0 h1 → mem.frame h1 h2 → mem.frame h0 h2.
Proof.
  intros [Hl1 H1] [Hl2 H2]. split; [lia|].
  intros p Hp. rewrite H2 by lia. by apply H1.
Qed.

Lemma frame_store h0 h p i (x : V) :
  (length h0 ≤ p)%nat → mem.frame h0 h → mem.frame h0 (mem.store h p i x).
Proof.
  intros Hp [Hl H]. unfold mem.store. split; [by rewrite length_alter|].
  intros q Hq. rewrite list_lookup_alter_ne by lia. by apply H.
Qed.

Lemma frame_store_list xs : ∀ h0 h p i,
  (length h0 ≤ p)%nat → mem.frame h0 h → mem.frame h0 (mem.store_list h p i xs).
Proof.
  induction xs as [|x xs IH]; intros h0 h p i Hp Hf; simpl; [done|].
  apply IH; [done|]. by apply frame_store.
Qed.

Lemma frame_alloc h0 h arr : mem.frame h0 h → mem.frame h0 (h ++ [arr]).
Proof.
  intros [Hl H]. split; [rewrite length_app; lia|].
  intros p Hp. rewrite lookup_app_l by lia. by apply H.
Qed.

Lemma contents_frame h0 h s :
  mem.allocated h0 s → mem.frame h0 h → mem.contents h s = mem.contents h0 s.
Proof.
  unfold mem.allocated, mem.contents. intros Hs [_ H].
  destruct (mem.array s) as [p|]; [|done]. by rewrite H.
Qed.

Lemma wf_allocated h s : mem.wf h s → mem.allocated h s.
Proof.
  unfold mem.wf, mem.allocated. destruct (mem.array s) as [p|]; [|done].
  intros (arr & Harr & _). by eapply lookup_lt_Some.
Qed.

Lemma wf_length h s : mem.wf h s → length (mem.contents h s) = mem.slen s.
Proof.
  unfold mem.wf, mem.contents. destruct (mem.array s) as [p|].
  - intros (arr & -> & Hcap & Hlen). simpl. rewrite length_take, length_drop. lia.
  - by intros [-> _].
Qed.

(** What [store_list] writes and where. *)
Lemma store_list_lookup xs : ∀ h p i arr,
  h !! p = Some arr → (i + length xs ≤ length arr)%nat →
  mem.store_list h p i xs !! p
  = Some (take i arr ++ xs ++ drop (i + length xs) arr).
Proof.
  induction xs as [|x xs IH]; intros h p i arr Harr Hlen; simpl in *.
  - by rewrite Nat.add_0_r, take_drop.
  - rewrite (IH (mem.store h p i x) p (S i) (<[i:=x]> arr)).
    + f_equal. rewrite (take_S_r _ _ x) by (apply list_lookup_insert_eq; lia).
      rewrite take_insert_ge by lia. rewrite drop_insert_lt by lia.
      rewrite <- app_assoc. simpl. do 3 f_equal. f_equal. lia.
    + unfold mem.store. by rewrite list_lookup_alter_eq, Harr.
    + rewrite length_insert. lia.
Qed.

Lemma store_list_length xs : ∀ h p i, length (mem.store_list h p i xs) = length h.
Proof.
  induction xs as [|x xs IH]; intros h p i; simpl; [done|].
  rewrite IH. unfold mem.store. by rewrite length_alter.
Qed.

(** [append] returns a slice that holds the old elements followed by the
    new ones, and writes only into memory that the call in progress owns. *)
Lemma append_spec h0 h s xs :
  mem.frame h0 h → mem.wf h s → mem.fresh h0 s →
  ∃ s' h', mem.append zero growslice_spare s xs h = (Ok s', h')
           ∧ mem.frame h0 h' ∧ mem.wf h' s' ∧ mem.fresh h0 s'
           ∧ mem.contents h' s' = mem.contents h s ++ xs.
Proof.
  intros Hf Hwf Hfresh. unfold mem.append. case_decide as Hcap.
  - unfold mem.wf, mem.fresh, mem.contents in *.
    destruct (mem.array s) as [p|] eqn:Hp.
    + destruct Hwf as (arr & Harr & Hbound & Hlen).
      eexists _, _. split; [done|].
      assert (Hst := store_list_lookup xs h p (mem.offset s + mem.slen s) arr Harr
                       ltac:(lia)).
      split_and!; simpl.
      * by apply frame_store_list.
      * eexists. split; [exact Hst|]. rewrite !length_app, length_take, length_drop.
        lia.
      * done.
      * rewrite Hst, Harr. simpl.
        rewrite drop_app_le by (rewrite length_take; lia).
        rewrite take_app_add' by (rewrite length_drop, length_take; lia).
        rewrite take_app_length. by rewrite take_drop_commute.
    + destruct Hwf as [Hlen Hc]. destruct xs; [|simpl in Hcap; lia].
      eexists _, _. split; [done|]. rewrite Hp. by rewrite app_nil_r.
  - pose proof (wf_length h s Hwf) as Hlen.
    eexists _, _. split; [done|]. unfold mem.wf, mem.fresh, mem.contents. simpl.
    split_and!.
    + by apply frame_alloc.
    + eexists. split; [by apply list_lookup_middle|].
      rewrite !length_app, length_replicate. fold (mem.contents h s). lia.
    + destruct Hf. lia.
    + rewrite list_lookup_middle by done. simpl.
      fold (mem.contents h s). rewrite app_assoc.
      apply take_app_length'. rewrite length_app. lia.
Qed.

Lemma index_frame h0 h s i e :
  mem.allocated h0 s → mem.frame h0 h → mem.contents h0 s !! i = Some e →
  mem.index s i h = (Ok e, h).
Proof.
  intros Hs Hf He. unfold mem.index. by rewrite (contents_frame h0), He.
Qed.

(** A [range] loop whose body keeps the frame and a relation [Rel] between
    its accumulator and the accumulator of a loop over lists computes what
    the loop over lists computes. *)
Lemma range_loop_spec {A B : Type} (body : A → V → mem.M A) (pbody : B → V → B)
    (Rel : list (list V) → A → B → Prop) h0 s :
  mem.allocated h0 s →
  (∀ h a b e, mem.frame h0 h → Rel h a b →
     ∃ a' h', body a e h = (Ok a', h') ∧ mem.frame h0 h' ∧ Rel h' a' (pbody b e)) →
  ∀ n i h a b,
    length (mem.contents h0 s) = (i + n)%nat → mem.frame h0 h → Rel h a b →
    ∃ a' h', mem.range_loop body s i n a h = (Ok a', h')
             ∧ mem.frame h0 h'
             ∧ Rel h' a' (foldl pbody b (drop i (mem.contents h0 s))).
Proof.
  intros Hs Hbody. induction n as [|n IH]; intros i h a b Hlen Hf Hrel; simpl.
  - exists a, h. rewrite drop_ge by lia. done.
  - destruct (lookup_lt_is_Some_2 (mem.contents h0 s) i) as [e He]; [lia|].
    unfold mem.bind at 1. rewrite (index_frame h0 h s i e) by done.
    destruct (Hbody h a b e Hf Hrel) as (a1 & h1 & Hb & Hf1 & Hrel1).
    unfold mem.bind at 1. rewrite Hb.
    destruct (IH (S i) h1 a1 (pbody b e)) as (a2 & h2 & Hl & Hf2 & Hrel2);
      [lia|done|done|].
    exists a2, h2. split_and!; [done|done|].
    by rewrite (drop_S _ e) by done.
Qed.

Lemma accumulates_nil h0 h : mem.accumulates h0 h mem.nil_slice [].
Proof. done. Qed.

Lemma accumulates_append h0 h r l xs :
  mem.frame h0 h → mem.accumulates h0 h r l →
  ∃ r' h', mem.append zero growslice_spare r xs h = (Ok r', h')
           ∧ mem.frame h0 h' ∧ mem.accumulates h0 h' r' (l ++ xs).
Proof.
  intros Hf (Hwf & Hfresh & <-).
  destruct (append_spec h0 h r xs Hf Hwf Hfresh) as (r' & h' & ? & ? & ? & ? & ?).
  by exists r', h'.
Qed.

Lemma range_spec {A B : Type} (body : A → V → mem.M A) (pbody : B → V → B)
    (Rel : list (list V) → A → B → Prop) h0 s a b :
  mem.wf h0 s →
  (∀ h a b e, mem.frame h0 h → Rel h a b →
     ∃ a' h', body a e h = (Ok a', h') ∧ mem.frame h0 h' ∧ Rel h' a' (pbody b e)) →
  Rel h0 a b →
  ∃ a' h', mem.range body s a h0 = (Ok a', h')
           ∧ mem.frame h0 h'
           ∧ Rel h' a' (foldl pbody b (mem.contents h0 s)).
Proof.
  intros Hwf Hbody Hrel. unfold mem.range.
  destruct (range_loop_spec body pbody Rel h0 s (wf_allocated _ _ Hwf) Hbody
              (mem.slen s) 0%nat h0 a b) as (a' & h' & ? & ? & ?);
    [by rewrite wf_length|apply frame_refl|done|].
  by exists a', h'.
Qed.

Variable Sprintf_v : V → string.
Variable xorshift_Next : Z → Z.

Lemma agrees_accumulates h0 s r h' l :
  mem.wf h0 s → mem.frame h0 h' → mem.accumulates h0 h' r l →
  mem.agrees h0 s (Ok r, h') (Ok l).
Proof.
  intros Hwf Hf (_ & _ & Hl). split; simpl.
  - apply contents_frame; [by apply wf_allocated|done].
  - by exists r.
Qed.

Lemma Filter_agrees h s (predicate : V → bool) :
  mem.wf h s →
  mem.agrees h s (mem.Filter zero growslice_spare s predicate h)
    (Ok (elements (Filter (NewStream (mem.contents h s)) predicate))).
Proof.
  intros Hwf. unfold mem.Filter, Filter. simpl.
  destruct (range_spec
              (fun result e =>
                 if predicate e then mem.append zero growslice_spare result [e]
                 else mem.ret result)
              (fun result e => if predicate e then result ++ [e] else result)
              (mem.accumulates h) h s mem.nil_slice [])
    as (r & h' & -> & Hf & Hacc); [done| |done|by eapply agrees_accumulates].
  intros h1 a b e Hf1 Hacc. destruct (predicate e).
  - by apply accumulates_append.
  - by exists a, h1.
Qed.

Lemma Map_agrees h s (mapper : V → V) :
  mem.wf h s →
  mem.agrees h s (mem.Map zero growslice_spare s mapper h)
    (Ok (elements (Map (NewStream (mem.contents h s)) mapper))).
Proof.
  intros Hwf. unfold mem.Map, Map. simpl.
  destruct (range_spec
              (fun result e => mem.append zero growslice_spare result [mapper e])
              (fun result e => result ++ [mapper e])
              (mem.accumulates h) h s mem.nil_slice [])
    as (r & h' & -> & Hf & Hacc); [done| |done|by eapply agrees_accumulates].
  intros h1 a b e Hf1 Hacc. by apply accumulates_append.
Qed.

Lemma FlatMap_agrees h s (mapper : V → list V) :
  mem.wf h s →
  mem.agrees h s (mem.FlatMap zero growslice_spare s mapper h)
    (Ok (elements (FlatMap (NewStream (mem.contents h s)) mapper))).
Proof.
  intros Hwf. unfold mem.FlatMap, FlatMap. simpl.
  destruct (range_spec
              (fun result e => mem.append zero growslice_spare result (mapper e))
              (fun result e => result ++ mapper e)
              (mem.accumulates h) h s mem.nil_slice [])
    as (r & h' & -> & Hf & Hacc); [done| |done|by eapply agrees_accumulates].
  intros h1 a b e Hf1 Hacc. by apply accumulates_append.
Qed.

Lemma Distinct_agrees h s :
  mem.wf h s →
  mem.agrees h s (mem.Distinct zero growslice_spare Sprintf_v s h)
    (Ok (elements (Distinct Sprintf_v (NewStream (mem.contents h s))))).
Proof.
  intros Hwf. unfold mem.Distinct, Distinct. simpl.
  set (body := fun (st : gmap string bool * mem.slice) (e : V) => _).
  destruct (range_spec body (Distinct_step Sprintf_v)
              (fun h1 a b => a.1 = b.1 ∧ mem.accumulates h h1 a.2 b.2)
              h s (∅, mem.nil_slice) (∅, []))
    as ([m r] & h' & Hrun & Hf & Hm & Hacc); [done| |done|].
  - intros h1 [m r] [m' l] e Hf1 [Hm Hacc]. simpl in Hm, Hacc. subst m'.
    unfold body, Distinct_step. destruct (m !! Sprintf_v e).
    + by exists (m, r), h1.
    + destruct (accumulates_append h h1 r l [e] Hf1 Hacc) as (r' & h' & Ha & ? & ?).
      exists (<[Sprintf_v e:=true]> m, r'), h'.
      unfold mem.bind. rewrite Ha. done.
  - unfold mem.bind at 1. rewrite Hrun. simpl in *.
    by eapply agrees_accumulates.
Qed.

(** After [make], [copy] fills the fresh array with the receiver's elements. *)
Lemma copy_fresh h s :
  mem.wf h s →
  ∃ h', mem.copy (mem.mkSlice (Some (length h)) 0 (mem.slen s) (mem.slen s)) s
          (h ++ [replicate (mem.slen s) zero])
        = (Ok (mem.slen s), h')
        ∧ mem.frame h h'
        ∧ h' !! length h = Some (mem.contents h s).
Proof.
  intros Hwf. pose proof (wf_length h s Hwf) as Hlen.
  unfold mem.copy. simpl. rewrite Nat.min_id.
  assert (Hf : mem.frame h (h ++ [replicate (mem.slen s) zero]))
    by apply frame_alloc, frame_refl.
  rewrite (contents_frame h) by (by try apply wf_allocated).
  rewrite take_ge by lia.
  eexists. split; [done|]. split.
  - apply frame_store_list; [lia|done].
  - erewrite store_list_lookup; [|by apply list_lookup_middle|].
    + rewrite drop_ge by (rewrite length_replicate; lia). simpl.
      by rewrite app_nil_r.
    + rewrite length_replicate. lia.
Qed.

Lemma sort_Slice_fresh h1 p data (less : V → V → bool) :
  h1 !! p = Some data →
  mem.sort_Slice xorshift_Next (mem.mkSlice (Some p) 0 (length data) (length data))
    less h1
  = match sort.Slice less xorshift_Next (sort_gas (length data)) data with
    | Ok data' => (Ok (), mem.store_list h1 p 0 data')
    | Panic => (Panic, h1)
    | OutOfFuel => (OutOfFuel, h1)
    end.
Proof.
  intros Hp. unfold mem.sort_Slice, mem.contents. simpl. rewrite Hp. simpl.
  by rewrite drop_0, take_ge by lia.
Qed.

Lemma Sort_agrees h s (less : V → V → bool) :
  mem.wf h s →
  mem.agrees h s (mem.Sort zero xorshift_Next s less h)
    (elements <$> Sort xorshift_Next (NewStream (mem.contents h s)) less).
Proof.
  intros Hwf. pose proof (wf_length h s Hwf) as Hlen.
  destruct (copy_fresh h s Hwf) as (h1 & Hcopy & Hf1 & Hh1).
  unfold mem.Sort, Sort. simpl.
  unfold mem.bind at 1. unfold mem.make, mem.bind at 1, mem.alloc, mem.ret. simpl.
  unfold mem.bind at 1. rewrite Hcopy.
  unfold mem.bind at 1. rewrite <- Hlen. rewrite (sort_Slice_fresh h1 _ _ less Hh1).
  pose proof (Slice_perm less xorshift_Next
                (sort_gas (length (mem.contents h s))) (mem.contents h s)) as Hperm.
  destruct (sort.Slice less xorshift_Next (sort_gas (length (mem.contents h s)))
              (mem.contents h s)) as [data| |]; simpl in *.
  - apply Permutation_length in Hperm.
    assert (Hst : mem.store_list h1 (length h) 0 data !! length h = Some data).
    { erewrite store_list_lookup; [|exact Hh1|simpl; lia].
      rewrite drop_ge by (simpl; lia). by rewrite app_nil_r. }
    split; simpl.
    + apply contents_frame; [by apply wf_allocated|].
      apply frame_store_list; [lia|done].
    + eexists. split; [done|]. unfold mem.contents at 1. simpl. rewrite Hst. simpl.
      rewrite drop_0, take_ge by lia. done.
  - split; simpl; [|done]. apply contents_frame; [by apply wf_allocated|done].
  - split; simpl; [|done]. apply contents_frame; [by apply wf_allocated|done].
Qed.

Lemma Limit_agrees h s (n : Z) :
  mem.wf h s →
  mem.agrees h s (mem.Limit s n h)
    (elements <$> Limit (NewStream (mem.contents h s)) n).
Proof.
  intros Hwf. pose proof (wf_length h s Hwf) as Hlen.
  unfold mem.Limit, Limit, slice_to, mem.slice_to, len. simpl. rewrite Hlen.
  case_decide as Hge; simpl.
  - split; [done|]. by exists s.
  - unfold mem.wf in Hwf. destruct (mem.array s) as [p|] eqn:Hp.
    + destruct Hwf as (arr & Harr & Hcap & Hle).
      destruct (decide (0 ≤ n)) as [Hn|Hn].
      * rewrite !decide_True by lia. simpl. split; [done|].
        eexists. split; [done|]. unfold mem.contents. simpl. rewrite Hp, Harr. simpl.
        rewrite take_take. f_equal. lia.
      * rewrite !decide_False by lia. done.
    + destruct Hwf as [Hl Hc]. rewrite Hl, Hc in *.
      rewrite !decide_False by lia. done.
Qed.

(** C5: none of the transforming operations writes into the memory of its
    receiver: in the store that [Filter], [Map], [FlatMap], [Sort],
    [Distinct] or [Limit] leaves behind, the receiver holds the elements it
    held before, in the same order; and the operation over the store
    returns what the operation over lists returns. *)
Theorem transforming_operations_keep_receiver h s
    (predicate : V → bool) (mapper : V → V) (flat : V → list V)
    (less : V → V → bool) (n : Z) :
  mem.wf h s →
  mem.agrees h s (mem.Filter zero growslice_spare s predicate h)
    (Ok (elements (Filter (NewStream (mem.contents h s)) predicate)))
  ∧ mem.agrees h s (mem.Map zero growslice_spare s mapper h)
      (Ok (elements (Map (NewStream (mem.contents h s)) mapper)))
  ∧ mem.agrees h s (mem.FlatMap zero growslice_spare s flat h)
      (Ok (elements (FlatMap (NewStream (mem.contents h s)) flat)))
  ∧ mem.agrees h s (mem.Sort zero xorshift_Next s less h)
      (elements <$> Sort xorshift_Next (NewStream (mem.contents h s)) less)
  ∧ mem.agrees h s (mem.Distinct zero growslice_spare Sprintf_v s h)
      (Ok (elements (Distinct Sprintf_v (NewStream (mem.contents h s)))))
  ∧ mem.agrees h s (mem.Limit s n h)
      (elements <$> Limit (NewStream (mem.contents h s)) n).
Proof.
  intros Hwf.
  split_and!; auto using Filter_agrees, Map_agrees, FlatMap_agrees, Sort_agrees,
    Distinct_agrees, Limit_agrees.
Qed.

End MemFacts.

(** The model at work: filtering the even numbers out of 1..5 allocates two
    arrays (capacity 1, then capacity 2 on the second [append]) and leaves
    the array of the receiver, at address 0, as it was. *)
Example Filter_even :
  mem.Filter 0 (fun _ _ => 0%nat) (mem.mkSlice (Some 0%nat) 0 5 5) Z.even
    [[1; 2; 3; 4; 5]]
  = (Ok (mem.mkSlice (Some 2%nat) 0 2 2), [[1; 2; 3; 4; 5]; [2]; [2; 4]]).
Proof. reflexivity. Qed.

(** With spare capacity the second [append] writes in place, into the array
    that the first one allocated. *)
Example Filter_even_in_place :
  mem.Filter 0 (fun _ needed => needed) (mem.mkSlice (Some 0%nat) 0 5 5) Z.even
    [[1; 2; 3; 4; 5]]
  = (Ok (mem.mkSlice (Some 1%nat) 0 2 2), [[1; 2; 3; 4; 5]; [2; 4]]).
Proof. reflexivity. Qed.

Lemma transforming_operations_keep_receiver_witness :
  mem.wf [[1; 2; 3; 4; 5]] (mem.mkSlice (Some 0%nat) 0 5 5)
  ∧ mem.agrees [[1; 2; 3; 4; 5]] (mem.mkSlice (Some 0%nat) 0 5 5)
      (mem.Filter 0 (fun _ needed => needed) (mem.mkSlice (Some 0%nat) 0 5 5) Z.even
         [[1; 2; 3; 4; 5]])
      (Ok [2; 4])
  ∧ mem.agrees [[1; 2; 3; 4; 5]] (mem.mkSlice (Some 0%nat) 0 5 5)
      (mem.Limit (mem.mkSlice (Some 0%nat) 0 5 5) 2 [[1; 2; 3; 4; 5]])
      (Ok [1; 2]).
Proof.
  assert (Hwf : mem.wf [[1; 2; 3; 4; 5]] (mem.mkSlice (Some 0%nat) 0 5 5)).
  { exists [1; 2; 3; 4; 5]. split; [reflexivity|]. simpl. lia. }
  split; [exact Hwf|].
  destruct (transforming_operations_keep_receiver 0 (fun _ needed => needed)
              (fun _ => EmptyString) (fun r => r) [[1; 2; 3; 4; 5]]
              (mem.mkSlice (Some 0%nat) 0 5 5)
              Z.even Z.succ (fun x => [x; x]) Z.ltb 2 Hwf)
    as (HFilter & _ & _ & _ & _ & HLimit).
  split; [exact HFilter|exact HLimit].
Defined.

(** * Further properties of the sequential operations *)

Lemma Stream_eq {T : Type} (s1 s2 : Stream T) : elements s1 = elements s2 → s1 = s2.
Proof. destruct s1, s2. simpl. by intros ->. Qed.

(** ** Filter *)

(** X1: [Filter] keeps exactly the elements that satisfy the predicate, in
    the order of the stream, and filtering twice is filtering by the
    conjunction of the two predicates. *)
Theorem Filter_keeps_matching {T : Type} (s : Stream T) (p q : T → bool) :
  elements (Filter s p) `sublist_of` elements s
  ∧ (∀ e, e ∈ elements (Filter s p) ↔ e ∈ elements s ∧ p e = true)
  ∧ Filter (Filter s p) q = Filter s (fun e => p e && q e)
  ∧ (Count (Filter s p) ≤ Count s).
Proof.
  rewrite !Filter_elements. split_and!.
  - apply sublist_filter.
  - intros e. rewrite list_elem_of_filter, Is_true_true. tauto.
  - apply Stream_eq. rewrite !Filter_elements, list_filter_filter.
    apply list_filter_iff. intros e. rewrite andb_True. tauto.
  - unfold Count, len. rewrite Filter_elements.
    pose proof (length_filter (fun e => p e) (elements s)). lia.
Qed.

(** ** FlatMap *)

(** X2: [FlatMap] concatenates the slices that the mapper returns, in the
    order of the stream; with a mapper that returns one element it is [Map],
    after a [Map] it is the [FlatMap] of the composed function, and an element
    mapped to the empty slice contributes nothing. *)
Theorem FlatMap_concatenates {T R U : Type} (s : Stream T) (mapper : T → list R)
    (f : T → R) (g : R → list U) :
  elements (FlatMap s mapper) = concat (mapper <$> elements s)
  ∧ FlatMap s (fun e => [f e]) = Map s f
  ∧ FlatMap (Map s f) g = FlatMap s (g ∘ f)
  ∧ length (elements (FlatMap s mapper)) = sum_list (length ∘ mapper <$> elements s)
  ∧ FlatMap s (fun _ => []) = NewStream ([] : list R).
Proof.
  rewrite !FlatMap_elements. split_and!.
  - induction (elements s) as [|e l IH]; [done|]. rewrite bind_cons, IH. done.
  - apply Stream_eq. rewrite FlatMap_elements, Map_elements.
    induction (elements s) as [|e l IH]; [done|]. rewrite bind_cons, IH. done.
  - apply Stream_eq. rewrite !FlatMap_elements, Map_elements.
    by rewrite list_fmap_bind.
  - induction (elements s) as [|e l IH]; [done|].
    rewrite bind_cons, length_app, IH. done.
  - apply Stream_eq. rewrite FlatMap_elements. simpl.
    induction (elements s) as [|e l IH]; [done|]. by rewrite bind_cons, IH.
Qed.

(** ** Reduce and Count *)

Lemma foldl_count {T : Type} (l : list T) (z : Z) :
  foldl (fun acc _ => acc + 1) z l = z + Z.of_nat (length l).
Proof.
  revert z. induction l as [|e l IH]; intros z.
  - simpl. lia.
  - change (foldl (fun acc _ => acc + 1) (z + 1) l = z + Z.of_nat (S (length l))).
    rewrite IH. lia.
Qed.

(** X3: [Reduce] folds from the left: reducing a stream whose elements are
    [l1] followed by [l2] is reducing [l2] from the value that reducing [l1]
    gave; reducing a mapped stream is one fold with the mapper applied on the
    way; and counting is reducing the stream of ones by addition. *)
Theorem Reduce_left_fold {T : Type} (l1 l2 : list T) (s : Stream T)
    (reducer : T → T → T) (initialValue : T) (f : T → T) :
  Reduce (NewStream (l1 ++ l2)) reducer initialValue
  = Reduce (NewStream l2) reducer (Reduce (NewStream l1) reducer initialValue)
  ∧ Reduce (Map s f) reducer initialValue
    = foldl (fun acc e => reducer acc (f e)) initialValue (elements s)
  ∧ Reduce (Map s (fun _ => 1)) Z.add 0 = Count s.
Proof.
  unfold Reduce. split_and!.
  - simpl. by rewrite foldl_app.
  - rewrite Map_elements. by rewrite foldl_fmap.
  - rewrite Map_elements, foldl_fmap. unfold Count, len.
    rewrite foldl_count. lia.
Qed.

(** ** Join *)

Lemma string_app_assoc (a b c : string) : (a +:+ b) +:+ c = a +:+ b +:+ c.
Proof.
  induction a as [|ch a IH]; [done|].
  change (String ch ((a +:+ b) +:+ c) = String ch (a +:+ b +:+ c)). by rewrite IH.
Qed.

Lemma string_app_nil_r (a : string) : a +:+ EmptyString = a.
Proof.
  induction a as [|ch a IH]; [done|].
  change (String ch (a +:+ EmptyString) = String ch a). by rewrite IH.
Qed.

Lemma Join_loop {T : Type} (Sprintf_v : T → string) (separator : string)
    (l : list T) : ∀ i result e,
  0 ≤ i →
  snd (foldl (Join_step Sprintf_v separator) (i, result) (e :: l))
  = result +:+ (if decide (i > 0) then separator else EmptyString)
    +:+ joined separator (Sprintf_v <$> e :: l).
Proof.
  induction l as [|e' l IH]; intros i result e Hi.
  - simpl. case_decide; [by rewrite string_app_assoc|done].
  - change (foldl (Join_step Sprintf_v separator) (i, result) (e :: e' :: l))
      with (foldl (Join_step Sprintf_v separator)
              (Join_step Sprintf_v separator (i, result) e) (e' :: l)).
    unfold Join_step at 2. cbv beta iota zeta. rewrite IH by lia. rewrite (decide_True (P:=i + 1 > 0)) by lia.
    change (joined separator (Sprintf_v <$> e :: e' :: l))
      with (Sprintf_v e +:+ separator +:+ joined separator (Sprintf_v <$> e' :: l)).
    case_decide.
    + by rewrite !string_app_assoc.
    + change (EmptyString +:+ ?x) with x. by rewrite !string_app_assoc.
Qed.

(** X4: on every stream [Join] returns the renderings of the elements in
    order with the separator between consecutive ones and nowhere else; the
    special cases for the empty and the one-element stream agree with the
    loop. *)
Theorem Join_joined {T : Type} (Sprintf_v : T → string) (s : Stream T)
    (separator : string) :
  Join Sprintf_v s separator = joined separator (Sprintf_v <$> elements s).
Proof.
  unfold Join. destruct (elements s) as [|e0 [|e1 l]]; [done|done|].
  rewrite Join_loop by lia. rewrite decide_False by lia. done.
Qed.

(** ** Limit *)

(** X5: limiting to [n] and then to [m] is limiting to the smaller of the
    two, panics included (a negative bound panics at either place); and a
    limit that returns leaves [min(n, len)] elements. *)
Theorem Limit_Limit {T : Type} (s : Stream T) (n m : Z) :
  (r ← Limit s n; Limit r m) = Limit s (n `min` m)
  ∧ (∀ out, Limit s n = Ok out → Count out = n `min` Count s).
Proof.
  split.
  - destruct (decide (n < 0)) as [Hn|Hn].
    { rewrite Limit_negative by done. rewrite Limit_negative by lia. done. }
    rewrite (Limit_nonnegative s n) by lia. simpl.
    destruct (decide (m < 0)) as [Hm|Hm].
    { rewrite !Limit_negative by lia. done. }
    rewrite !Limit_nonnegative by lia. simpl. f_equal. f_equal.
    rewrite take_take. f_equal. lia.
  - intros out Hout. destruct (decide (n < 0)) as [Hn|Hn].
    { by rewrite Limit_negative in Hout. }
    rewrite Limit_nonnegative in Hout by lia. injection Hout as <-.
    unfold Count, len. simpl. rewrite length_take. lia.
Qed.

(** ** ForEach *)

Lemma foldl_snoc {T : Type} (l acc : list T) :
  foldl (fun seen e => seen ++ [e]) acc l = acc ++ l.
Proof.
  revert acc. induction l as [|e l IH]; intros acc; simpl.
  - by rewrite app_nil_r.
  - by rewrite IH, <- app_assoc.
Qed.

(** X6: [ForEach] calls the action once per element, in the order of the
    stream; over a filtered stream it runs the action on the elements that
    pass, and over a mapped stream it runs it on the images. *)
Theorem ForEach_in_order {T R St : Type} (s : Stream T) (p : T → bool) (f : T → R)
    (action : T → St → St) (action' : R → St → St) (st : St) :
  ForEach s (fun e seen => seen ++ [e]) [] = elements s
  ∧ ForEach (Filter s p) action st
    = ForEach s (fun e st => if p e then action e st else st) st
  ∧ ForEach (Map s f) action' st = ForEach s (fun e => action' (f e)) st.
Proof.
  unfold ForEach. split_and!.
  - by rewrite foldl_snoc.
  - rewrite Filter_elements. revert st.
    induction (elements s) as [|e l IH]; intros st; [done|].
    rewrite filter_cons. simpl. destruct (p e); simpl; by rewrite IH.
  - rewrite Map_elements. by rewrite foldl_fmap.
Qed.

(** ** Distinct: which element is kept *)

Lemma first_occurrences_head {T : Type} (render : T → string) (l : list T) (e : T) :
  e ∈ first_occurrences render l →
  head (filter (fun x => render x = render e) l) = Some e.
Proof.
  induction l as [|x l IH]; [by rewrite elem_of_nil|].
  simpl. rewrite elem_of_cons. intros [->|Hin].
  - by rewrite filter_cons_True.
  - apply list_elem_of_filter in Hin as [Hne Hin].
    rewrite filter_cons_False by congruence. by apply IH.
Qed.

Lemma first_occurrences_NoDup_id {T : Type} (render : T → string) (l : list T) :
  NoDup (render <$> l) → first_occurrences render l = l.
Proof.
  induction l as [|x l IH]; [done|].
  rewrite fmap_cons, NoDup_cons. intros [Hx Hl]. simpl. rewrite IH by done.
  f_equal. clear IH Hl. induction l as [|y l IH]; [done|].
  rewrite fmap_cons, not_elem_of_cons in Hx. destruct Hx as [Hxy Hx].
  rewrite filter_cons_True by congruence. by rewrite IH.
Qed.

(** X7: the element that [Distinct] keeps for a rendering is the first
    element of the stream with this rendering (so of two different elements
    that print alike, the later one is dropped); every rendering of the input
    is still represented; and [Distinct] returns the stream unchanged exactly
    when no two of its elements print alike. *)
Theorem Distinct_keeps_first {T : Type} (Sprintf_v : T → string) (s : Stream T) :
  (∀ e, e ∈ elements (Distinct Sprintf_v s) →
        head (filter (fun x => Sprintf_v x = Sprintf_v e) (elements s)) = Some e)
  ∧ (∀ e, e ∈ elements s →
          Sprintf_v e ∈ (Sprintf_v <$> elements (Distinct Sprintf_v s)))
  ∧ (Distinct Sprintf_v s = s ↔ NoDup (Sprintf_v <$> elements s)).
Proof.
  rewrite Distinct_elements. split_and!.
  - intros e. apply first_occurrences_head.
  - intros e. apply first_occurrences_complete.
  - split.
    + intros Heq. rewrite <- Heq, Distinct_elements. apply first_occurrences_NoDup.
    + intros Hnd. apply Stream_eq. rewrite Distinct_elements.
      by apply first_occurrences_NoDup_id.
Qed.

(** ** Grouping: the groups partition the stream *)

Section GroupPartition.
Context {T V : Type} `{Countable K}.

Lemma grouped_insert (m : gmap K (list V)) (k : K) (g : list V) :
  grouped (<[k := g]> m) = (length g + grouped (delete k m))%nat.
Proof.
  unfold grouped. rewrite <- insert_delete_eq.
  rewrite map_fold_insert_L; [done| |apply lookup_delete_eq].
  intros. lia.
Qed.

Lemma grouped_map_append (m : gmap K (list V)) (k : K) (v : V) :
  grouped (map_append m k v) = S (grouped m).
Proof.
  unfold map_append. rewrite grouped_insert.
  destruct (m !! k) as [g|] eqn:Hk; simpl.
  - unfold grouped at 2.
    rewrite (map_fold_delete_L _ _ k g m); [|intros; lia|done].
    fold (grouped (delete k m)). rewrite length_app. simpl. lia.
  - by rewrite delete_id.
Qed.

Lemma grouped_loop (keyMapper : T → K) (valueMapper : T → V) (l : list T)
    (m : gmap K (list V)) :
  grouped (foldl (fun result e => map_append result (keyMapper e) (valueMapper e)) m l)
  = (grouped m + length l)%nat.
Proof.
  revert m. induction l as [|e l IH]; intros m; simpl; [lia|].
  rewrite IH, grouped_map_append. lia.
Qed.

Lemma group_loop_fmap (keyMapper : T → K) (valueMapper : T → V) (l : list T)
    (m : gmap K (list T)) :
  foldl (fun result e => map_append result (keyMapper e) (valueMapper e))
        (fmap (M:=list) valueMapper <$> m) l
  = fmap (M:=list) valueMapper
      <$> foldl (fun result e => map_append result (keyMapper e) e) m l.
Proof.
  revert m. induction l as [|e l IH]; intros m; simpl; [done|].
  rewrite <- IH. f_equal. unfold map_append.
  rewrite fmap_insert, lookup_fmap. f_equal.
  destruct (m !! keyMapper e); simpl; [by rewrite fmap_app|done].
Qed.

End GroupPartition.

(** X8: the groups of [GroupBy] partition the stream: no group is empty,
    every member of the group of [k] has key [k], every element of the stream
    is in the group of its key, and the groups hold as many elements as the
    stream, so there are at most as many groups as elements. *)
Theorem GroupBy_partition {T : Type} `{Countable K} (s : Stream T) (keyMapper : T → K) :
  (∀ k g, GroupBy s keyMapper !! k = Some g →
          g ≠ [] ∧ Forall (fun e => keyMapper e = k) g)
  ∧ (∀ e, e ∈ elements s →
          ∃ g, GroupBy s keyMapper !! keyMapper e = Some g ∧ e ∈ g)
  ∧ grouped (GroupBy s keyMapper) = length (elements s)
  ∧ (size (GroupBy s keyMapper) ≤ length (elements s))%nat.
Proof.
  assert (Hlook : ∀ k, default [] (GroupBy s keyMapper !! k)
                       = filter (fun e => keyMapper e = k) (elements s)).
  { intros k. unfold GroupBy. rewrite (group_loop_lookup keyMapper id).
    rewrite lookup_empty. simpl. by rewrite list_fmap_id. }
  assert (Hdom : ∀ k, is_Some (GroupBy s keyMapper !! k)
                      ↔ k ∈ (keyMapper <$> elements s)).
  { intros k. unfold GroupBy. rewrite (group_loop_dom keyMapper id).
    rewrite lookup_empty. split; [intros [[? [=]]|]; done | by right]. }
  assert (Hsome : ∀ k g, GroupBy s keyMapper !! k = Some g →
                         g ≠ [] ∧ Forall (fun e => keyMapper e = k) g).
  { intros k g Hg. pose proof (Hlook k) as Hk. rewrite Hg in Hk. simpl in Hk.
    assert (Hin : k ∈ (keyMapper <$> elements s)) by (apply Hdom; eauto).
    apply list_elem_of_fmap in Hin as (e & -> & Hin). split.
    - intros ->. assert (He : e ∈ filter (fun e' => keyMapper e' = keyMapper e) (elements s))
        by (by apply list_elem_of_filter).
      rewrite <- Hk in He. by apply elem_of_nil in He.
    - rewrite Hk. apply Forall_forall. intros x Hx.
      by apply list_elem_of_filter in Hx as [? _]. }
  assert (Htotal : grouped (GroupBy s keyMapper) = length (elements s)).
  { unfold GroupBy. rewrite (grouped_loop keyMapper id). unfold grouped.
    by rewrite map_fold_empty. }
  split_and!; [done| |done|].
  - intros e He.
    destruct (proj2 (Hdom (keyMapper e))) as [g Hg].
    { apply list_elem_of_fmap. by exists e. }
    exists g. split; [done|]. pose proof (Hlook (keyMapper e)) as Hk.
    rewrite Hg in Hk. simpl in Hk. rewrite Hk. by apply list_elem_of_filter.
  - rewrite <- Htotal. clear Htotal Hlook Hdom. revert Hsome.
    generalize (GroupBy s keyMapper). intros m.
    induction m as [|k g m Hk Hfold IH] using map_first_key_ind; intros Hsome.
    + by rewrite map_size_empty.
    + rewrite map_size_insert_None by done. rewrite grouped_insert.
      rewrite delete_id by done.
      destruct (Hsome k g) as [Hne _]; [apply lookup_insert_eq|].
      destruct g; [done|]. simpl.
      assert (size m ≤ grouped m)%nat; [|lia].
      apply IH. intros k' g' Hg'. apply Hsome. rewrite lookup_insert_ne; [done|].
      intros ->. by rewrite Hk in Hg'.
Qed.

(** X9: grouping with a value mapper is grouping the elements and then
    mapping inside every group; the string-keyed method
    [GroupByStringToString] is the same loop. *)
Theorem GroupByWithValueMapper_fmap {T V : Type} `{Countable K} (s : Stream T)
    (keyMapper : T → K) (valueMapper : T → V)
    (name : T → string) (render : T → string) (key : V → K) :
  GroupByWithValueMapper s keyMapper valueMapper
  = fmap (M:=list) valueMapper <$> GroupBy s keyMapper
  ∧ GroupByStringToString s name render = fmap (M:=list) render <$> GroupByString s name
  ∧ GroupBy (Map s valueMapper) key
    = GroupByWithValueMapper s (key ∘ valueMapper) valueMapper.
Proof.
  assert (Hg : ∀ (W : Type) `{Countable J} (km : T → J) (vm : T → W),
             GroupByWithValueMapper s km vm = fmap (M:=list) vm <$> GroupBy s km).
  { intros W J ? ? km vm. unfold GroupByWithValueMapper, GroupBy.
    rewrite <- group_loop_fmap. by rewrite fmap_empty. }
  split_and!.
  - apply Hg.
  - apply Hg.
  - unfold GroupBy, GroupByWithValueMapper. rewrite Map_elements.
    by rewrite foldl_fmap.
Qed.

(** ** Optional values *)

(** X10: the accessors of an [Optional] agree with one another, whatever
    the optional holds: [Get] reports an error exactly when no value is
    present, and then it is [ErrNoValuePresent] with the zero value; [Get] is
    [OrElseThrow] with that error; [OrElse] is [OrElseGet] with a constant
    supplier and returns the value of [Get] when one is present; a supplier or
    consumer runs exactly when the name says so, and [OrElseThrow] with a nil
    error on an empty optional returns the zero value with a nil error. *)
Theorem Optional_accessors_agree {T St : Type} (zero : T) (o : optional.Optional T)
    (defaultValue : T) (supplier : St → T * St) (consumer : T → St → St) (st : St)
    (err : option optional.error) :
  (snd (optional.Get zero o) = None ↔ optional.IsPresent o = true)
  ∧ (optional.IsPresent o = false →
     optional.Get zero o = (zero, Some optional.ErrNoValuePresent)
     ∧ optional.OrElse zero o defaultValue = defaultValue
     ∧ optional.OrElseGet zero o supplier st = supplier st
     ∧ optional.IfPresent zero o consumer st = st
     ∧ optional.OrElseThrow zero o err = (zero, err))
  ∧ (optional.IsPresent o = true →
     optional.OrElse zero o defaultValue = fst (optional.Get zero o)
     ∧ optional.OrElseGet zero o supplier st = (fst (optional.Get zero o), st)
     ∧ optional.IfPresent zero o consumer st = consumer (fst (optional.Get zero o)) st
     ∧ optional.OrElseThrow zero o err = optional.Get zero o)
  ∧ optional.Get zero o = optional.OrElseThrow zero o (Some optional.ErrNoValuePresent)
  ∧ optional.OrElse zero o defaultValue
    = fst (optional.OrElseGet zero o (fun st => (defaultValue, st)) st).
Proof.
  unfold optional.Get, optional.OrElse, optional.OrElseGet, optional.IfPresent,
    optional.OrElseThrow, optional.IsPresent.
  destruct (optional.found o); simpl; split_and!; try done; intros [=].
Qed.

(** X11: a value wrapped by [Of] comes back from every accessor, with a nil
    error; [OfNullable] holds the value exactly when [isZero] rejects it, and
    what [Get] then returns is the value itself or the zero value with
    [ErrNoValuePresent]. *)
Theorem OfNullable_Get {T : Type} (zero v defaultValue : T) (isZero : T → bool) :
  optional.Get zero (optional.Of v) = (v, None)
  ∧ optional.OrElse zero (optional.Of v) defaultValue = v
  ∧ optional.GetIfPresent (optional.Of v) = (Some v, true)
  ∧ optional.IsPresent (optional.OfNullable v isZero) = negb (isZero v)
  ∧ optional.Get zero (optional.OfNullable v isZero)
    = (if isZero v then (zero, Some optional.ErrNoValuePresent) else (v, None))
  ∧ optional.OrElse zero (optional.OfNullable v isZero) defaultValue
    = (if isZero v then defaultValue else v).
Proof.
  unfold optional.OfNullable. split_and!; try done; by destruct (isZero v).
Qed.

(** X12: [FindFirst] after [Filter] finds the first element of the stream
    that satisfies the predicate, and nothing when there is none;
    [FindFirst] holds a value exactly when the stream counts at least one
    element, and then [Limit] to one element keeps exactly that value. *)
Theorem FindFirst_Filter {T : Type} (zero : T) (s : Stream T) (p : T → bool) :
  optional.GetIfPresent (FindFirst (Filter s p))
  = (snd <$> list_find (fun e => p e = true) (elements s),
     bool_decide (Exists (fun e => p e = true) (elements s)))
  ∧ (optional.IsPresent (FindFirst s) = true ↔ Count s > 0)
  ∧ (optional.IsPresent (FindFirst s) = true →
     Limit s 1 = Ok (NewStream [optional.OrElse zero (FindFirst s) zero])).
Proof.
  split_and!.
  - unfold FindFirst. rewrite Filter_elements.
    induction (elements s) as [|e l IH]; [done|].
    destruct (p e) eqn:He.
    + rewrite filter_cons_True by (by rewrite He). simpl.
      rewrite decide_True by done. unfold optional.GetIfPresent. simpl.
      f_equal. symmetry. apply bool_decide_eq_true. by apply Exists_cons_hd.
    + rewrite filter_cons_False by (rewrite He; exact id). simpl.
      rewrite decide_False by (by rewrite He). rewrite IH.
      assert (Hex : bool_decide (Exists (fun e => p e = true) l)
                    = bool_decide (Exists (fun e => p e = true) (e :: l))).
      { apply bool_decide_ext. rewrite Exists_cons, He. split; [by right|].
        by intros [?|?]. }
      rewrite Hex. by destruct (list_find _ l) as [[i x]|].
  - unfold FindFirst, Count, len. destruct (elements s); simpl; split; try done; lia.
  - unfold FindFirst. destruct s as [[|e l]]; simpl; [done|]. intros _.
    destruct (decide (1 >= len (e :: l))) as [Hl|Hl].
    + unfold Limit. simpl. rewrite decide_True by done.
      destruct l; [done|]. unfold len in Hl. simpl in Hl. lia.
    + rewrite Limit_nonnegative by lia. done.
Qed.

(** ** Enums *)

Lemma FindByName_loop_head {T : Type} (vs : list (enum.Enum T)) (name : string) :
  enum.FindByName_loop vs name
  = match head (filter (fun e => enum.Name e = name) vs) with
    | Some e => optional.Of e
    | None => optional.Empty
    end.
Proof.
  induction vs as [|v vs IH]; [done|]. simpl. rewrite filter_cons.
  by destruct (decide (enum.Name v = name)).
Qed.

(** X13: [FindByName] returns the first enum of the set with the given
    name, and the empty optional exactly when no enum of the set has this
    name.  [Add] appends without looking for the name: the added enum is found
    under its name only when no enum of that name was in the set before;
    otherwise the earlier one is still the one found, and lookups of other
    names are not affected. *)
Theorem FindByName_first {T : Type} (s : enum.EnumSet T) (e : enum.Enum T)
    (name : string) :
  optional.value (enum.FindByName s name)
  = head (filter (fun v => enum.Name v = name) (enum.Values s))
  ∧ (optional.IsPresent (enum.FindByName s name) = true
     ↔ name ∈ (enum.Name <$> enum.Values s))
  ∧ enum.Values (enum.Add s e) = enum.Values s ++ [e]
  ∧ enum.FindByName (enum.Add s e) (enum.Name e)
    = (if optional.IsPresent (enum.FindByName s (enum.Name e))
       then enum.FindByName s (enum.Name e) else optional.Of e)
  ∧ (name ≠ enum.Name e →
     enum.FindByName (enum.Add s e) name = enum.FindByName s name).
Proof.
  unfold enum.FindByName, enum.Values, enum.Add. simpl.
  rewrite !FindByName_loop_head. split_and!.
  - by destruct (head _).
  - rewrite list_elem_of_fmap. split.
    + destruct (head _) as [v|] eqn:Hv; [|done]. intros _.
      apply head_Some_elem_of, list_elem_of_filter in Hv as [Hn Hv]. by exists v.
    + intros (v & -> & Hv).
      destruct (filter (fun v' => enum.Name v' = enum.Name v) (enum.values s))
        as [|v' l] eqn:Hf; [|done].
      assert (Hin : v ∈ filter (fun v' => enum.Name v' = enum.Name v) (enum.values s))
        by (by apply list_elem_of_filter).
      rewrite Hf in Hin. by apply elem_of_nil in Hin.
  - done.
  - rewrite filter_app, filter_cons_True by done. simpl.
    by destruct (filter _ (enum.values s)).
  - intros Hne. rewrite filter_app, filter_cons_False by congruence.
    by rewrite filter_nil, app_nil_r.
Qed.

(** X14: [Equal] compares the names only: it is an equivalence relation on
    enums, holds exactly when [String] gives the same text, disregards the
    values, and the enum that [FindByName] finds is [Equal] to every enum of
    the name asked for. *)
Theorem Equal_by_name {T : Type} (e1 e2 e3 : enum.Enum T) (s : enum.EnumSet T)
    (name : string) (v1 v2 : T) :
  enum.Equal e1 e1 = true
  ∧ enum.Equal e1 e2 = enum.Equal e2 e1
  ∧ (enum.Equal e1 e2 = true → enum.Equal e2 e3 = true → enum.Equal e1 e3 = true)
  ∧ (enum.Equal e1 e2 = true ↔ enum.String e1 = enum.String e2)
  ∧ enum.Equal (enum.mkEnum name v1) (enum.mkEnum name v2) = true
  ∧ (∀ found, optional.value (enum.FindByName s (enum.Name e1)) = Some found →
              enum.Equal found e1 = true).
Proof.
  unfold enum.Equal, enum.String. split_and!.
  - by apply bool_decide_eq_true.
  - apply bool_decide_ext. split; congruence.
  - rewrite !bool_decide_eq_true. congruence.
  - by rewrite bool_decide_eq_true.
  - by apply bool_decide_eq_true.
  - intros found. unfold enum.FindByName. rewrite FindByName_loop_head.
    destruct (head _) as [v|] eqn:Hv; simpl; [|done]. intros [= ->].
    apply head_Some_elem_of, list_elem_of_filter in Hv as [Hn _].
    by apply bool_decide_eq_true.
Qed.

(** ** ParallelStream: the concurrency budget *)

Section ParallelBudget.
Context {T R : Type}.
Variable GOMAXPROCS : Z.
Variable mapper : T → R.

Lemma sem_step maxGoroutines capacity (st st' : @parallel.state T R) :
  parallel.step mapper maxGoroutines capacity st st' →
  0 ≤ parallel.sem st ≤ maxGoroutines → 0 ≤ parallel.sem st' ≤ maxGoroutines.
Proof. intros Hstep. destruct Hstep; simpl; lia. Qed.

Lemma reachable_sem (s : Stream T) maxGoroutines (st : @parallel.state T R) :
  0 ≤ parallel.default_maxGoroutines GOMAXPROCS maxGoroutines →
  parallel.reachable GOMAXPROCS mapper s maxGoroutines st →
  0 ≤ parallel.sem st ≤ parallel.default_maxGoroutines GOMAXPROCS maxGoroutines.
Proof.
  intros Hmax. unfold parallel.reachable. revert st. apply rtc_ind_r.
  - simpl. lia.
  - intros st st' _ Hstep IH. eapply sem_step; [exact Hstep|exact IH].
Qed.

Lemma sending_tokens (gs : list (@parallel.goroutine T)) :
  sending gs ≤ parallel.tokens gs.
Proof.
  induction gs as [|g gs IH]; [done|].
  rewrite tokens_cons. unfold sending, len in *.
  destruct g; simpl;
    change (list_omap _ _ parallel.unsent gs) with (omap parallel.unsent gs); lia.
Qed.

Lemma acquired_nonnegative (p : @parallel.main T R) : 0 ≤ parallel.acquired p.
Proof. destruct p; simpl; lia. Qed.

Lemma tokens_zero_unsent (gs : list (@parallel.goroutine T)) :
  parallel.tokens gs ≤ 0 → omap parallel.unsent gs = [].
Proof.
  intros Hgs. pose proof (sending_tokens gs) as Hs. unfold sending, len in Hs.
  destruct (omap parallel.unsent gs); [done|]. simpl in Hs. lia.
Qed.

Lemma in_order_step (input : list T) (st st' : @parallel.state T R) :
  parallel.inv mapper input st → parallel.sem st ≤ 1 → in_order mapper input st →
  parallel.step mapper 1 (len input) st st' → in_order mapper input st'.
Proof.
  intros (_ & Hwg & Hsem & Hpc) Hs Hord Hstep.
  destruct Hstep; unfold in_order in *; simpl in *;
    rewrite ?omap_app in *; simpl in *; rewrite ?fmap_app in *; simpl in *;
    try done.
  - rewrite <- Hord. by rewrite <- !app_assoc.
  - rewrite <- Hord. by rewrite <- !app_assoc.
  - rewrite tokens_app, tokens_cons in Hsem. simpl in Hsem.
    pose proof (acquired_nonnegative p). pose proof (tokens_nonnegative gs2).
    rewrite (tokens_zero_unsent gs1) in * by lia. simpl in *.
    rewrite <- Hord. by rewrite <- !app_assoc.
  - apply main_ok_running in Hpc as [[=] _]. by destruct gs1.
  - exfalso. unfold len in *. rewrite length_app in *. simpl in *.
    destruct p; simpl in *; lia.
Qed.

Lemma reachable_in_order (s : Stream T) (st : @parallel.state T R) :
  parallel.reachable GOMAXPROCS mapper s 1 st → in_order mapper (elements s) st.
Proof.
  intros Hreach. assert (Hone : parallel.default_maxGoroutines GOMAXPROCS 1 = 1) by done.
  revert st Hreach. unfold parallel.reachable. apply rtc_ind_r.
  - unfold in_order. simpl. done.
  - intros st st' Hreach Hstep IH. unfold parallel.run in Hstep. rewrite Hone in Hstep.
    eapply in_order_step; [|
      |exact IH|exact Hstep].
    + by apply (reachable_inv GOMAXPROCS mapper s 1).
    + apply (reachable_sem s 1 st) in Hreach; [|by rewrite Hone]. rewrite Hone in Hreach. lia.
Qed.

(** X15: the semaphore keeps the concurrency within the budget.  Provided
    [GOMAXPROCS] is positive, in every
    state that a run of [ParallelStream] can reach, [sem] holds between 0
    and [maxGoroutines] tokens (the current [GOMAXPROCS] when the argument is
    not positive), at most that many goroutines hold a token, so at most that
    many are calling [mapper] or sending, the wait-group counter is not
    negative, [resultChan] holds at most [len] values and no goroutine has
    panicked. *)
Theorem ParallelStream_within_budget (s : Stream T) (maxGoroutines : Z)
    (st : @parallel.state T R) :
  0 < GOMAXPROCS →
  parallel.reachable GOMAXPROCS mapper s maxGoroutines st →
  0 ≤ parallel.sem st ≤ parallel.default_maxGoroutines GOMAXPROCS maxGoroutines
  ∧ parallel.tokens (parallel.goroutines st)
    ≤ parallel.default_maxGoroutines GOMAXPROCS maxGoroutines
  ∧ sending (parallel.goroutines st)
    ≤ parallel.default_maxGoroutines GOMAXPROCS maxGoroutines
  ∧ 0 ≤ parallel.wg st
  ∧ len (parallel.resultChan st) ≤ len (elements s)
  ∧ parallel.pc st ≠ parallel.MPanic.
Proof.
  intros Hpos Hreach.
  pose proof (default_maxGoroutines_positive GOMAXPROCS Hpos maxGoroutines) as Hmax.
  pose proof (reachable_sem s maxGoroutines st ltac:(lia) Hreach) as Hs.
  apply reachable_inv in Hreach as (Hperm & Hwg & Hsem & Hpc).
  pose proof (acquired_nonnegative (parallel.pc st)).
  pose proof (sending_tokens (parallel.goroutines st)).
  split_and!; try lia.
  - rewrite Hwg. unfold len. destruct (parallel.pc st); simpl; lia.
  - apply Permutation_length in Hperm.
    rewrite !length_app, !length_fmap in Hperm. unfold len. lia.
  - intros Hp. by rewrite Hp in Hpc.
Qed.

(** X16: with a budget of one goroutine the results come in input order:
    every run of [ParallelStream(mapper, 1)] that returns, returns the stream
    that [Map] returns, and some run does return. *)
Theorem ParallelStream_one_in_order (s : Stream T) :
  (∃ out, parallel.ParallelStream GOMAXPROCS mapper s 1 out)
  ∧ (∀ out, parallel.ParallelStream GOMAXPROCS mapper s 1 out → out = Map s mapper).
Proof.
  split.
  - destruct (returns_within mapper
                (parallel.steps_left (parallel.init (R:=R) s)) 1
                (elements s) (parallel.init s)) as (st & out & Hrtc & Hout);
      [done|destruct s; apply inv_init|done|].
    exists out, st. done.
  - intros out (st & Hreach & Hout).
    pose proof (reachable_inv _ _ _ _ _ Hreach) as (_ & _ & _ & Hpc).
    apply reachable_in_order in Hreach. unfold in_order in Hreach.
    rewrite Hout in *. simpl in *. destruct Hpc as (_ & Hgs & Hc).
    rewrite Hgs, Hc in Hreach. simpl in Hreach. rewrite app_nil_r in Hreach.
    apply Stream_eq. by rewrite Map_elements.
Qed.

End ParallelBudget.

Lemma ParallelStream_within_budget_witness :
  0 < 8
  ∧ parallel.reachable 8 (fun i => i * 2) (NewStream [1; 2; 3; 4; 5]) 2
      (parallel.mkState (parallel.MAcquire 3 [4; 5]) 3 2 [] false
         [parallel.GSend 1; parallel.GSend 2])
  ∧ sending [parallel.GSend 1; parallel.GSend 2] ≤ 2.
Proof.
  assert (Hreach : parallel.reachable 8 (fun i => i * 2) (NewStream [1; 2; 3; 4; 5]) 2
            (parallel.mkState (parallel.MAcquire 3 [4; 5]) 3 2 [] false
               [parallel.GSend 1; parallel.GSend 2])).
  { apply (schedule_run_sound _ _ _ (replicate 7 parallel.Main)). reflexivity. }
  pose proof (ParallelStream_within_budget 8 (fun i => i * 2)
                (NewStream [1; 2; 3; 4; 5]) 2 _ ltac:(lia) Hreach)
    as (_ & _ & Hsend & _).
  split; [lia|]. split; [exact Hreach|exact Hsend].
Defined.

(** ** Sort on a stream that is already in order *)

Section SortSorted.
Context {T : Type}.
Variable less : T → T → bool.
Variable xorshift_Next : Z → Z.
Variable gas : nat.
Implicit Types (data : list T).

Lemma Less_sorted data i j :
  sorted less data → 0 ≤ i → i < j → j < len data →
  sort.Less less data j i = Ok false.
Proof.
  intros Hsorted Hi Hij Hj. unfold sort.Less, sort.index, len in *.
  rewrite !decide_True by lia.
  destruct (lookup_lt_is_Some_2 data (Z.to_nat j)) as [y Hy]; [lia|].
  destruct (lookup_lt_is_Some_2 data (Z.to_nat i)) as [x Hx]; [lia|].
  rewrite Hy, Hx. simpl. f_equal.
  apply (Hsorted (Z.to_nat i) (Z.to_nat j)); [lia|done|done].
Qed.

Lemma insertionSort_shift_sorted fuel data a j :
  sorted less data → 0 ≤ a → j < len data →
  sort.insertionSort_shift less (S fuel) data a j = Ok data.
Proof.
  intros Hsorted Ha Hj. simpl. case_decide; [|done].
  rewrite Less_sorted by (done || lia). done.
Qed.

Lemma insertionSort_loop_sorted fuel : ∀ data a b i,
  sorted less data → 0 ≤ a → b ≤ len data → (Z.to_nat (b - i) < fuel)%nat →
  (0 < gas)%nat →
  sort.insertionSort_loop less gas fuel data a b i = Ok data.
Proof.
  induction fuel as [|fuel IH]; intros data a b i Hsorted Ha Hb Hfuel Hgas; [lia|].
  simpl. case_decide; [|done].
  destruct gas as [|g]; [lia|].
  rewrite insertionSort_shift_sorted by (done || lia). simpl.
  apply IH; (done || lia).
Qed.

Lemma partialInsertionSort_scan_sorted fuel : ∀ data b i,
  sorted less data → 1 ≤ i → i ≤ b → b ≤ len data → (Z.to_nat (b - i) < fuel)%nat →
  sort.partialInsertionSort_scan less fuel data b i = Ok b.
Proof.
  induction fuel as [|fuel IH]; intros data b i Hsorted Hi Hib Hb Hfuel; [lia|].
  simpl. case_decide.
  - rewrite Less_sorted by (done || lia). simpl. apply IH; (done || lia).
  - f_equal. lia.
Qed.

Lemma median_func_sorted data a b c swaps :
  sorted less data → 0 ≤ a → a < b → b < c → c < len data →
  sort.median_func less data a b c swaps = Ok (b, swaps).
Proof.
  intros Hsorted Ha Hab Hbc Hc. unfold sort.median_func, sort.order2_func.
  rewrite (Less_sorted data a b) by (done || lia). simpl.
  rewrite (Less_sorted data b c) by (done || lia). simpl.
  rewrite (Less_sorted data a b) by (done || lia). done.
Qed.

Lemma choosePivot_func_sorted data :
  sorted less data → 12 < len data →
  ∃ pivot, sort.choosePivot_func less data 0 (len data)
           = Ok (pivot, sort.increasingHint).
Proof.
  intros Hsorted Hlen. unfold sort.choosePivot_func, sort.shortestNinther.
  pose proof (quot_4 (len data - 0) ltac:(lia)) as Hq.
  rewrite decide_True by lia.
  case_decide.
  - unfold sort.medianAdjacent_func.
    repeat (rewrite median_func_sorted by (done || lia); simpl).
    by eexists.
  - simpl. rewrite median_func_sorted by (done || lia). simpl. by eexists.
Qed.

Lemma partialInsertionSort_loop_sorted fuel data :
  sorted less data → 0 < len data → (0 < fuel)%nat → len data < Z.of_nat gas →
  sort.partialInsertionSort_loop less gas fuel data 0 (len data) (0 + 1) 0
  = Ok (data, true).
Proof.
  intros Hsorted Hlen Hfuel Hgas. destruct fuel as [|fuel]; [lia|].
  simpl.
  rewrite partialInsertionSort_scan_sorted by (done || unfold len in *; lia).
  simpl. rewrite decide_True by done. done.
Qed.

Lemma pdqsort_loop_sorted fuel data limit :
  sorted less data → (0 < fuel)%nat → limit ≠ 0 ∨ len data ≤ 12 →
  len data + 7 < Z.of_nat gas →
  sort.pdqsort_loop less xorshift_Next gas fuel data 0 (len data) limit true true
  = Ok data.
Proof.
  intros Hsorted Hfuel Hlimit Hgas. destruct fuel as [|fuel]; [lia|].
  simpl. unfold sort.maxInsertion.
  case_decide.
  { unfold sort.insertionSort_func.
    apply insertionSort_loop_sorted; (done || unfold len in *; lia). }
  rewrite decide_False by lia. simpl.
  destruct (choosePivot_func_sorted data Hsorted ltac:(lia)) as [pivot ->].
  simpl. unfold sort.partialInsertionSort_func.
  rewrite partialInsertionSort_loop_sorted by (done || unfold len in *; lia).
  done.
Qed.

Lemma Slice_sorted data :
  sorted less data → len data + 7 < Z.of_nat gas →
  sort.Slice less xorshift_Next gas data = Ok data.
Proof.
  intros Hsorted Hgas. unfold sort.Slice, sort.pdqsort_func.
  apply pdqsort_loop_sorted; [done|unfold len in *; lia| |done].
  destruct (decide (len data ≤ 12)); [by right|left].
  unfold sort.bits_Len. rewrite decide_False by lia.
  pose proof (Z.log2_nonneg (len data)). lia.
Qed.

End SortSorted.


Section SortedFacts.
Context {T : Type}.
Variable less : T → T → bool.
Implicit Types (x y : T) (l : list T).

Lemma sorted_nil : sorted less [].
Proof. intros i j x y _ Hi. by rewrite lookup_nil in Hi. Qed.

Lemma sorted_cons x l :
  sorted less (x :: l) ↔ Forall (fun y => less y x = false) l ∧ sorted less l.
Proof.
  split.
  - intros Hs. split.
    + apply Forall_forall. intros y Hy. apply list_elem_of_lookup in Hy as [j Hj].
      apply (Hs 0%nat (S j)); [lia|done|done].
    + intros i j a b Hij Hi Hj. apply (Hs (S i) (S j)); [lia|done|done].
  - intros [Hall Hs] i j a b Hij Hi Hj. destruct j as [|j]; [lia|].
    simpl in Hj. destruct i as [|i].
    + simpl in Hi. injection Hi as <-. rewrite Forall_forall in Hall.
      apply Hall. by eapply list_elem_of_lookup_2.
    + simpl in Hi. apply (Hs i j); [lia|done|done].
Qed.

Lemma sorted_app l1 l2 :
  sorted less (l1 ++ l2)
  ↔ sorted less l1 ∧ sorted less l2
    ∧ ∀ x y, x ∈ l1 → y ∈ l2 → less y x = false.
Proof.
  induction l1 as [|a l1 IH]; simpl.
  - split; [intros ?; split_and!; [apply sorted_nil|done|]|tauto].
    intros x y Hx. by apply elem_of_nil in Hx.
  - rewrite !sorted_cons, IH, Forall_app, !Forall_forall.
    setoid_rewrite elem_of_cons. split.
    + intros ((H1 & H2) & H3 & H4 & H5). split_and!; try done.
      intros x y [->|Hx] Hy; [by apply H2|by apply H5].
    + intros ((H1 & H3) & H4 & H5). split_and!; try done.
      * intros y Hy. apply H5; [by left|done].
      * intros x y Hx Hy. apply H5; [by right|done].
Qed.

End SortedFacts.

(** ** Sort below the insertion-sort threshold *)

Section InsertionSorts.
Context {T : Type}.
Variable less : T → T → bool.
Variable gas : nat.
Hypothesis less_asymmetric : ∀ a b, less a b = true → less b a = false.
Hypothesis less_incomparable_transitive :
  ∀ a b c, less a b = false → less b c = false → less a c = false.
Implicit Types (x y : T) (pre post data : list T).

(** The inner loop stops behind the first neighbour that the element is
    not less than. *)
Lemma insertionSort_shift_stop pre x post fuel :
  (length pre < fuel)%nat →
  ∃ pre1 pre2,
    pre = pre1 ++ pre2
    ∧ Forall (fun y => less x y = true) pre2
    ∧ (∀ p, last pre1 = Some p → less x p = false)
    ∧ sort.insertionSort_shift less fuel (pre ++ x :: post) 0 (len pre)
      = Ok (pre1 ++ x :: pre2 ++ post).
Proof.
  revert post fuel. induction pre as [|y pre IH] using rev_ind; intros post fuel Hfuel.
  - exists [], []. split_and!; [done|constructor|done|].
    destruct fuel; [simpl in Hfuel; lia|]. done.
  - destruct fuel as [|fuel]; [lia|]. rewrite length_app in Hfuel. simpl in Hfuel.
    simpl. rewrite decide_True by (unfold len; rewrite length_app; simpl; lia).
    replace (len (pre ++ [y])) with (len pre + 1)
      by (unfold len; rewrite length_app; simpl; lia).
    rewrite <- app_assoc. simpl. rewrite Less_adjacent. simpl.
    destruct (less x y) eqn:Hlt.
    + rewrite Swap_adjacent. simpl.
      replace (len pre + 1 - 1) with (len pre) by lia.
      destruct (IH (y :: post) fuel) as (pre1 & pre2 & -> & Hall & Hlast & ->); [lia|].
      exists pre1, (pre2 ++ [y]). split_and!.
      * by rewrite app_assoc.
      * apply Forall_app. split; [done|]. by constructor.
      * done.
      * by rewrite <- app_assoc.
    + exists (pre ++ [y]), []. split_and!; [by rewrite app_nil_r|constructor| |].
      * intros p. rewrite last_snoc. by intros [= <-].
      * by rewrite <- app_assoc.
Qed.

Lemma sorted_insert pre1 pre2 x :
  sorted less (pre1 ++ pre2) →
  Forall (fun y => less x y = true) pre2 →
  (∀ p, last pre1 = Some p → less x p = false) →
  sorted less (pre1 ++ x :: pre2).
Proof using less_asymmetric less_incomparable_transitive.
  rewrite !sorted_app, sorted_cons, Forall_forall.
  intros (H1 & H2 & H3) Hall Hlast. split_and!; [done| |done|].
  - apply Forall_forall. intros y Hy. by apply less_asymmetric, Hall.
  - intros u v Hu. rewrite elem_of_cons. intros [->|Hv]; [|by apply H3].
    destruct pre1 as [|p pre1 _] using rev_ind; [by apply elem_of_nil in Hu|].
    specialize (Hlast p (last_snoc _ _)).
    apply elem_of_app in Hu as [Hu|Hu].
    + apply (less_incomparable_transitive x p u); [done|].
      apply sorted_app in H1 as (_ & _ & H1). apply H1; [done|].
      by apply list_elem_of_singleton.
    + by apply list_elem_of_singleton in Hu as ->.
Qed.

Lemma insertionSort_loop_sorts rest : ∀ A fuel b,
  (length A + length rest < gas)%nat →
  (length rest < fuel)%nat →
  b = len A + len rest →
  sorted less A →
  ∃ A', sort.insertionSort_loop less gas fuel (A ++ rest) 0 b (len A) = Ok A'
        ∧ sorted less A'.
Proof using less_asymmetric less_incomparable_transitive.
  induction rest as [|x rest IH]; intros A fuel b Hgas Hfuel Hb Hinv.
  - destruct fuel as [|fuel]; [simpl in Hfuel; lia|]. simpl.
    rewrite decide_False by (unfold len in *; simpl in *; lia).
    exists A. by rewrite !app_nil_r.
  - destruct fuel as [|fuel]; [lia|]. simpl in Hgas, Hfuel. simpl.
    rewrite decide_True by (unfold len in *; simpl in *; lia).
    destruct (insertionSort_shift_stop A x rest gas)
      as (pre1 & pre2 & -> & Hall & Hlast & ->); [lia|]. simpl.
    destruct (IH (pre1 ++ x :: pre2) fuel b) as (A' & HA' & Hinv').
    + rewrite length_app in *. simpl. lia.
    + lia.
    + unfold len in *. rewrite !length_app in *. simpl in *. lia.
    + by apply sorted_insert.
    + exists A'. split; [|done]. rewrite <- HA'. f_equal.
      * rewrite <- app_assoc. done.
      * unfold len. rewrite !length_app. simpl. lia.
Qed.

Lemma insertionSort_func_sorts data :
  (length data < gas)%nat →
  ∃ out, sort.insertionSort_func less gas data 0 (len data) = Ok out
         ∧ sorted less out.
Proof using less_asymmetric less_incomparable_transitive.
  intros Hgas. unfold sort.insertionSort_func. destruct data as [|x rest].
  - exists []. destruct gas; [simpl in Hgas; lia|]. split; [done|apply sorted_nil].
  - destruct (insertionSort_loop_sorts rest [x] gas (len (x :: rest)))
      as (out & Hout & Hinv).
    + simpl in *. lia.
    + simpl in *. lia.
    + unfold len. simpl. lia.
    + apply sorted_cons. split; [constructor|apply sorted_nil].
    + exists out. split; [|done]. exact Hout.
Qed.

End InsertionSorts.

(** X18: when [less] is a strict weak ordering (asymmetric, and being
    unordered by it is transitive) and the stream has at most twelve elements,
    the stream that [Sort] returns is in order: none of its elements is less
    than an element before it. *)
Theorem Sort_sorts_up_to_maxInsertion {T : Type} (xorshift_Next : Z → Z)
    (s : Stream T) (less : T → T → bool) :
  (∀ a b, less a b = true → less b a = false) →
  (∀ a b c, less a b = false → less b c = false → less a c = false) →
  (length (elements s) ≤ 12)%nat →
  ∃ out, Sort xorshift_Next s less = Ok out
         ∧ sorted less (elements out)
         ∧ elements out ≡ₚ elements s.
Proof.
  intros Hasym Htrans Hlen. unfold Sort, sort_gas.
  replace (length (elements s) + 8)%nat with (S (length (elements s) + 7)) by lia.
  rewrite Slice_insertionSort by (unfold len, sort.maxInsertion; lia).
  pose proof (insertionSort_func_perm less (S (length (elements s) + 7))
                (elements s) 0 (len (elements s))) as Hperm.
  destruct (insertionSort_func_sorts less (S (length (elements s) + 7)) Hasym Htrans
              (elements s)) as (out & Hout & Hsorted); [lia|].
  rewrite Hout in *. exists (NewStream out). done.
Qed.

(** X19: when [less] is a strict weak ordering and the stream has at most
    twelve elements, sorting twice is sorting once: [Sort] applied to the
    stream that [Sort] returned gives that stream back. *)
Theorem Sort_idempotent_up_to_maxInsertion {T : Type} (xorshift_Next : Z → Z)
    (s : Stream T) (less : T → T → bool) :
  (∀ a b, less a b = true → less b a = false) →
  (∀ a b c, less a b = false → less b c = false → less a c = false) →
  (length (elements s) ≤ 12)%nat →
  ∃ out, Sort xorshift_Next s less = Ok out ∧ Sort xorshift_Next out less = Ok out.
Proof.
  intros Hasym Htrans Hlen. unfold Sort at 1. unfold sort_gas.
  replace (length (elements s) + 8)%nat with (S (length (elements s) + 7)) by lia.
  rewrite Slice_insertionSort by (unfold len, sort.maxInsertion; lia).
  destruct (insertionSort_func_sorts less (S (length (elements s) + 7)) Hasym Htrans
              (elements s)) as (out & -> & Hsorted); [lia|].
  exists (NewStream out). split; [done|]. unfold Sort. simpl.
  rewrite Slice_sorted; [done|done|unfold sort_gas, len; lia].
Qed.


Lemma Sort_sorts_up_to_maxInsertion_witness :
  (length (elements (NewStream [3; 1; 2; 3; 0])) ≤ 12)%nat
  ∧ ∃ out, Sort (fun r => r) (NewStream [3; 1; 2; 3; 0]) Z.ltb = Ok out
         ∧ sorted Z.ltb (elements out)
         ∧ elements out ≡ₚ [3; 1; 2; 3; 0].
Proof.
  assert (Hlen : (length (elements (NewStream [3; 1; 2; 3; 0])) ≤ 12)%nat)
    by (simpl; lia).
  split; [exact Hlen|].
  apply (Sort_sorts_up_to_maxInsertion (fun r => r) (NewStream [3; 1; 2; 3; 0]) Z.ltb).
  - intros a b. rewrite Z.ltb_lt, Z.ltb_ge. lia.
  - intros a b c. rewrite !Z.ltb_ge. lia.
  - exact Hlen.
Defined.

Lemma Sort_idempotent_up_to_maxInsertion_witness :
  (length (elements (NewStream [5; 2; 4; 2; 1])) ≤ 12)%nat
  ∧ ∃ out, Sort (fun r => r) (NewStream [5; 2; 4; 2; 1]) Z.ltb = Ok out
         ∧ Sort (fun r => r) out Z.ltb = Ok out.
Proof.
  assert (Hlen : (length (elements (NewStream [5; 2; 4; 2; 1])) ≤ 12)%nat)
    by (simpl; lia).
  split; [exact Hlen|].
  apply (Sort_idempotent_up_to_maxInsertion (fun r => r) (NewStream [5; 2; 4; 2; 1]) Z.ltb).
  - intros a b. rewrite Z.ltb_lt, Z.ltb_ge. lia.
  - intros a b c. rewrite !Z.ltb_ge. lia.
  - exact Hlen.
Defined.

(** ** Limit shares the receiver's memory *)

(** X20: for [0 <= n < len], [Limit] allocates nothing and returns a header
    over the receiver's own backing array, with the receiver's capacity.  The
    receiver is untouched when [Limit] returns, but it does not stay so:
    appending one element to the slice of the returned stream writes in place
    and replaces element [n] of the receiver. *)
Theorem Limit_shares_backing_array {V : Type} (zero : V)
    (growslice_spare : nat → nat → nat) (h : list (list V)) (s : mem.slice)
    (n : Z) (x : V) :
  mem.wf h s → 0 ≤ n < Z.of_nat (mem.slen s) →
  ∃ r, mem.Limit s n h = (Ok r, h)
       ∧ mem.array r = mem.array s
       ∧ mem.offset r = mem.offset s
       ∧ mem.scap r = mem.scap s
       ∧ mem.contents h r = take (Z.to_nat n) (mem.contents h s)
       ∧ ∃ r' h', mem.append zero growslice_spare r [x] h = (Ok r', h')
                  ∧ length h' = length h
                  ∧ mem.contents h' r' = take (Z.to_nat n) (mem.contents h s) ++ [x]
                  ∧ mem.contents h' s = <[Z.to_nat n := x]> (mem.contents h s).
Proof.
  intros Hwf Hn. unfold mem.Limit, mem.slice_to, mem.wf in *.
  rewrite decide_False by lia.
  destruct (mem.array s) as [p|] eqn:Hp; [|lia].
  destruct Hwf as (arr & Harr & Hcap & Hlen).
  rewrite decide_True by lia. eexists. split; [done|]. simpl.
  split_and!; try done.
  - unfold mem.contents. simpl. rewrite Hp, Harr. simpl.
    rewrite take_take. f_equal. lia.
  - unfold mem.append. simpl. rewrite decide_True by lia.
    eexists _, _. split; [done|]. unfold mem.store.
    split_and!.
    + by rewrite length_alter.
    + unfold mem.contents. simpl. rewrite Hp, list_lookup_alter_eq, Harr. simpl.
      rewrite take_take, drop_insert_ge by lia.
      replace (mem.offset s + Z.to_nat n - mem.offset s)%nat with (Z.to_nat n) by lia.
      replace (Z.to_nat n `min` mem.slen s)%nat with (Z.to_nat n) by lia.
      replace (Z.to_nat n + 1)%nat with (S (Z.to_nat n)) by lia.
      assert (Hin : (Z.to_nat n < length (drop (mem.offset s) arr))%nat)
        by (rewrite length_drop; lia).
      rewrite (take_S_r _ _ x) by (by apply list_lookup_insert_eq).
      by rewrite take_insert_ge.
    + unfold mem.contents. rewrite Hp, list_lookup_alter_eq, Harr. simpl.
      rewrite drop_insert_ge by lia.
      replace (mem.offset s + Z.to_nat n - mem.offset s)%nat with (Z.to_nat n) by lia.
      apply take_insert_lt. lia.
Qed.

Lemma Limit_shares_backing_array_witness :
  mem.wf [[1; 2; 3]] (mem.mkSlice (Some 0%nat) 0 3 3)
  ∧ 0 ≤ 1 < Z.of_nat 3
  ∧ ∃ r, mem.Limit (mem.mkSlice (Some 0%nat) 0 3 3) 1 [[1; 2; 3]] = (Ok r, [[1; 2; 3]])
       ∧ ∃ r' h', mem.append 0 (fun _ n => n) r [9] [[1; 2; 3]] = (Ok r', h')
                  ∧ mem.contents h' (mem.mkSlice (Some 0%nat) 0 3 3) = [1; 9; 3].
Proof.
  assert (Hwf : mem.wf [[1; 2; 3]] (mem.mkSlice (Some 0%nat) 0 3 3)).
  { exists [1; 2; 3]. simpl. split; [done|lia]. }
  assert (Hn : 0 ≤ 1 < Z.of_nat 3) by lia.
  split; [exact Hwf|]. split; [exact Hn|].
  destruct (Limit_shares_backing_array 0 (fun _ n => n) [[1; 2; 3]]
              (mem.mkSlice (Some 0%nat) 0 3 3) 1 9 Hwf Hn)
    as (r & Hr & _ & _ & _ & _ & r' & h' & Happ & _ & _ & Hs).
  exists r. split; [exact Hr|]. exists r', h'. split; [exact Happ|exact Hs].
Defined.

(** ** Reordering the stages of a pipeline *)

(** X21: [Map] can be moved across [Filter] and [Limit]: filtering the
    mapped stream is mapping the stream filtered by the composed predicate,
    and limiting the mapped stream is mapping the limited stream, the panic on
    a negative bound included.  [Distinct] can be moved across a [Filter]
    whose predicate looks at the rendering only. *)
Theorem Map_commutes {T R : Type} (s : Stream T) (f : T → R) (p : R → bool) (n : Z)
    (Sprintf_v : T → string) (q : string → bool) :
  Filter (Map s f) p = Map (Filter s (p ∘ f)) f
  ∧ Limit (Map s f) n = (fun r => Map r f) <$> Limit s n
  ∧ Distinct Sprintf_v (Filter s (q ∘ Sprintf_v))
    = Filter (Distinct Sprintf_v s) (q ∘ Sprintf_v).
Proof.
  split_and!.
  - apply Stream_eq. rewrite Filter_elements, !Map_elements, Filter_elements.
    induction (elements s) as [|e l IH]; [done|].
    rewrite fmap_cons, !filter_cons. simpl. rewrite IH.
    by destruct (p (f e)).
  - destruct (decide (n < 0)) as [Hn|Hn].
    + by rewrite !Limit_negative.
    + rewrite !Limit_nonnegative by lia. rewrite Map_elements.
      change ((fun r => Map r f) <$> Ok (NewStream (take (Z.to_nat n) (elements s))))
        with (Ok (Map (NewStream (take (Z.to_nat n) (elements s))) f)).
      f_equal. apply Stream_eq. rewrite Map_elements. simpl. by rewrite fmap_take.
  - apply Stream_eq.
    rewrite Distinct_elements, !Filter_elements, Distinct_elements.
    exact (first_occurrences_filter Sprintf_v (fun k => q k) (elements s)).
Qed.

(** ** EnumSet: FromValues keeps the slice it is given *)

Lemma take_snoc_length {V : Type} (l : list V) (a : V) (rest : list V) (n : nat) :
  length l = n → take (n + 1) (l ++ a :: rest) = l ++ [a].
Proof.
  intros <-. rewrite (cons_middle a), app_assoc. apply take_app_length'.
  rewrite length_app. simpl. lia.
Qed.

(** X22: [FromValues] does not copy its argument.  Two sets made from one
    slice that has spare capacity share its backing array: [Add] on the first
    writes in place, and a later [Add] on the second overwrites the enum that
    the first one added.  With no spare capacity [Add] moves the values to a
    fresh array and leaves the given slice as it was. *)
Theorem FromValues_shares_slice {V : Type} (zero : V)
    (growslice_spare : nat → nat → nat) (h : list (list V)) (values : mem.slice)
    (a b : V) :
  mem.wf h values →
  ∃ s1 h1 s2 h2,
    enum_mem.Add zero growslice_spare (enum_mem.FromValues values) a h = (Ok s1, h1)
    ∧ enum_mem.Add zero growslice_spare (enum_mem.FromValues values) b h1 = (Ok s2, h2)
    ∧ mem.contents h1 s1 = mem.contents h values ++ [a]
    ∧ mem.contents h2 s2 = mem.contents h values ++ [b]
    ∧ mem.contents h2 values = mem.contents h values
    ∧ ((mem.slen values < mem.scap values)%nat →
       mem.contents h2 s1 = mem.contents h values ++ [b])
    ∧ (mem.slen values = mem.scap values →
       mem.contents h2 s1 = mem.contents h values ++ [a]).
Proof.
  intros Hwf. unfold enum_mem.Add, enum_mem.FromValues, mem.append. simpl.
  pose proof (wf_length h values Hwf) as Hlen.
  unfold mem.wf in Hwf.
  destruct (decide (mem.slen values + 1 ≤ mem.scap values)%nat) as [Hcap|Hcap].
  - destruct (mem.array values) as [p|] eqn:Hp; [|lia].
    destruct Hwf as (arr & Harr & Hbound & Hle).
    eexists _, _, _, _. split; [done|]. split; [done|].
    unfold mem.contents in *. simpl. rewrite Hp in *. unfold mem.store.
    rewrite !list_lookup_alter_eq, Harr in *. simpl in *.
    assert (Hat : ∀ c, take (mem.slen values + 1)
                         (drop (mem.offset values)
                            (<[(mem.offset values + mem.slen values)%nat := c]> arr))
                       = take (mem.slen values) (drop (mem.offset values) arr) ++ [c]).
    { intros c. rewrite drop_insert_ge by lia.
      replace (mem.offset values + mem.slen values - mem.offset values)%nat
        with (mem.slen values) by lia.
      replace (mem.slen values + 1)%nat with (S (mem.slen values)) by lia.
      rewrite (take_S_r _ _ c)
        by (apply list_lookup_insert_eq; rewrite length_drop; lia).
      by rewrite take_insert_ge. }
    split_and!.
    + apply Hat.
    + rewrite list_insert_insert_eq. apply Hat.
    + rewrite list_insert_insert_eq, drop_insert_ge by lia. by rewrite take_insert_ge by lia.
    + intros _. rewrite list_insert_insert_eq. apply Hat.
    + lia.
  - eexists _, _, _, _. split; [done|]. split; [done|].
    assert (Hh : ∀ (h' : list (list V)) xs,
              mem.contents (h' ++ [xs]) values = mem.contents h' values
              ∨ mem.array values = Some (length h')).
    { intros h' xs. unfold mem.contents.
      destruct (mem.array values) as [p|]; [|by left].
      destruct (decide (p = length h')) as [->|Hne]; [by right|left].
      destruct (decide (p < length h')%nat).
      - by rewrite lookup_app_l.
      - rewrite !lookup_ge_None_2; [done|lia|rewrite length_app; simpl; lia]. }
    assert (Hin : ∀ p, mem.array values = Some p → (p < length h)%nat).
    { intros p Hp. rewrite Hp in Hwf. destruct Hwf as (arr & Harr & _).
      by eapply lookup_lt_Some. }
    assert (H1 : ∀ xs, mem.contents (h ++ [xs]) values = mem.contents h values).
    { intros xs. destruct (Hh h xs) as [?|Hp]; [done|]. apply Hin in Hp. lia. }
    split_and!.
    + unfold mem.contents at 1. simpl. rewrite list_lookup_middle by done. simpl.
      by apply take_snoc_length.
    + unfold mem.contents at 1. simpl. rewrite list_lookup_middle by done. simpl.
      rewrite H1. by apply take_snoc_length.
    + match goal with |- mem.contents (?h' ++ [?xs]) _ = _ =>
        destruct (Hh h' xs) as [->|Hp] end; [done|].
      apply Hin in Hp. rewrite length_app in Hp. simpl in Hp. lia.
    + intros ?. lia.
    + intros _. unfold mem.contents at 1. simpl.
      rewrite lookup_app_l by (rewrite length_app; simpl; lia).
      rewrite list_lookup_middle by done. simpl.
      by apply take_snoc_length.
Qed.

Lemma FromValues_shares_slice_witness :
  mem.wf [[1; 0; 0]] (mem.mkSlice (Some 0%nat) 0 1 3)
  ∧ ∃ s1 h1 s2 h2,
      enum_mem.Add 0 (fun _ n => n) (enum_mem.FromValues (mem.mkSlice (Some 0%nat) 0 1 3))
        7 [[1; 0; 0]] = (Ok s1, h1)
      ∧ enum_mem.Add 0 (fun _ n => n) (enum_mem.FromValues (mem.mkSlice (Some 0%nat) 0 1 3))
          8 h1 = (Ok s2, h2)
      ∧ mem.contents h1 s1 = [1; 7]
      ∧ mem.contents h2 s1 = [1; 8].
Proof.
  assert (Hwf : mem.wf [[1; 0; 0]] (mem.mkSlice (Some 0%nat) 0 1 3)).
  { exists [1; 0; 0]. simpl. split; [done|lia]. }
  split; [exact Hwf|].
  destruct (FromValues_shares_slice 0 (fun _ n => n) [[1; 0; 0]]
              (mem.mkSlice (Some 0%nat) 0 1 3) 7 8 Hwf)
    as (s1 & h1 & s2 & h2 & H1 & H2 & Hc1 & _ & _ & Hshared & _).
  exists s1, h1, s2, h2. split; [exact H1|]. split; [exact H2|].
  split; [exact Hc1|]. apply Hshared. simpl. lia.
Defined.
